(** * ThreadPool-CPP: a shallow embedding of src/threadpool.cpp

    The pool object, its task queue, the worker loop [threadFunc], the
    [Task] / [Result] hand-shake and the static [Thread] id counter are
    written as executable functions over an explicit program state.  Every
    critical section of the source (the code run between two points at which
    a thread holds no lock or is parked on a condition variable) is one step
    of the model; the interleaving of threads is the order of the steps. *)

From stdpp Require Import base option list gmap strings.
From Stdlib Require Import ZArith Lia.

Local Open Scope Z_scope.

(** ** Machine integers *)

(** [int] is a 32-bit two's complement integer, carried as a [Z]. *)
Definition INT32_MIN : Z := -2147483648.
Definition INT32_MAX : Z := 2147483647.

Definition is_int (z : Z) : Prop := INT32_MIN <= z <= INT32_MAX.

(** Conversion to [int]: the identity on the range of [int]. *)
Definition to_int (z : Z) : Z := (z + 2147483648) mod 4294967296 - 2147483648.

(** [x++] and [x--] on an [int] counter. *)
Definition incr (x : Z) : Z := to_int (x + 1).
Definition decr (x : Z) : Z := to_int (x - 1).

(** [(size_t)x] for an [int] [x], with a 64-bit [size_t]. *)
Definition to_size_t (x : Z) : Z := x mod 18446744073709551616.

Arguments to_int z : simpl never.
Arguments incr x : simpl never.
Arguments decr x : simpl never.
Arguments to_size_t x : simpl never.

(** ** Constants of the source (lines 7-9) *)

Definition TASK_MAX_THRESHHOLD : Z := INT32_MAX.
Definition THREAD_MAX_THRESHHOLD : Z := 1024.
Definition THREAD_MAX_IDLE_TIME : Z := 60.

(** ** The pool object *)

Inductive PoolMode := MODE_FIXED | MODE_CACHED.

Definition PoolMode_eqb (a b : PoolMode) : bool :=
  match a, b with
  | MODE_FIXED, MODE_FIXED | MODE_CACHED, MODE_CACHED => true
  | _, _ => false
  end.

(** Tasks and results live on the heap and are named by their address. *)
Abbreviation TaskAddr := nat.
Abbreviation ResultAddr := nat.

(** A [Thread] object: the entry routine is always the pool's [threadFunc],
    so only the identifier is kept. *)
Record Thread := mkThread { threadId_ : Z }.

(** Modelled from the spec: the member declarations of [ThreadPool] (the
    header threadpool.h is not among the sources).  The spec lists a FIFO
    queue of pending tasks, a registry from worker id to worker, the counters
    (baseline, current and idle worker count, pending task count), the two
    thresholds, the mode and the running flag; the counters and thresholds
    are [int]s, as the setters' parameters and the constants that initialise
    them are. *)
Record ThreadPool := mkPool {
  threads_ : gmap Z Thread;
  initThreadSize_ : Z;
  taskSize_ : Z;
  idleThreadSize_ : Z;
  curThreadSize_ : Z;
  taskQueMaxThreshHold_ : Z;
  threadSizeThreshHold_ : Z;
  poolMode_ : PoolMode;
  isPoolRunning_ : bool;
  taskQue_ : list TaskAddr
}.

Definition set_threads_ (v : gmap Z Thread) (p : ThreadPool) : ThreadPool :=
  mkPool v (initThreadSize_ p) (taskSize_ p) (idleThreadSize_ p)
    (curThreadSize_ p) (taskQueMaxThreshHold_ p) (threadSizeThreshHold_ p)
    (poolMode_ p) (isPoolRunning_ p) (taskQue_ p).
Definition set_initThreadSize_ (v : Z) (p : ThreadPool) : ThreadPool :=
  mkPool (threads_ p) v (taskSize_ p) (idleThreadSize_ p)
    (curThreadSize_ p) (taskQueMaxThreshHold_ p) (threadSizeThreshHold_ p)
    (poolMode_ p) (isPoolRunning_ p) (taskQue_ p).
Definition set_taskSize_ (v : Z) (p : ThreadPool) : ThreadPool :=
  mkPool (threads_ p) (initThreadSize_ p) v (idleThreadSize_ p)
    (curThreadSize_ p) (taskQueMaxThreshHold_ p) (threadSizeThreshHold_ p)
    (poolMode_ p) (isPoolRunning_ p) (taskQue_ p).
Definition set_idleThreadSize_ (v : Z) (p : ThreadPool) : ThreadPool :=
  mkPool (threads_ p) (initThreadSize_ p) (taskSize_ p) v
    (curThreadSize_ p) (taskQueMaxThreshHold_ p) (threadSizeThreshHold_ p)
    (poolMode_ p) (isPoolRunning_ p) (taskQue_ p).
Definition set_curThreadSize_ (v : Z) (p : ThreadPool) : ThreadPool :=
  mkPool (threads_ p) (initThreadSize_ p) (taskSize_ p) (idleThreadSize_ p)
    v (taskQueMaxThreshHold_ p) (threadSizeThreshHold_ p)
    (poolMode_ p) (isPoolRunning_ p) (taskQue_ p).
Definition set_taskQueMaxThreshHold_ (v : Z) (p : ThreadPool) : ThreadPool :=
  mkPool (threads_ p) (initThreadSize_ p) (taskSize_ p) (idleThreadSize_ p)
    (curThreadSize_ p) v (threadSizeThreshHold_ p)
    (poolMode_ p) (isPoolRunning_ p) (taskQue_ p).
Definition set_threadSizeThreshHold_ (v : Z) (p : ThreadPool) : ThreadPool :=
  mkPool (threads_ p) (initThreadSize_ p) (taskSize_ p) (idleThreadSize_ p)
    (curThreadSize_ p) (taskQueMaxThreshHold_ p) v
    (poolMode_ p) (isPoolRunning_ p) (taskQue_ p).
Definition set_poolMode_ (v : PoolMode) (p : ThreadPool) : ThreadPool :=
  mkPool (threads_ p) (initThreadSize_ p) (taskSize_ p) (idleThreadSize_ p)
    (curThreadSize_ p) (taskQueMaxThreshHold_ p) (threadSizeThreshHold_ p)
    v (isPoolRunning_ p) (taskQue_ p).
Definition set_isPoolRunning_ (v : bool) (p : ThreadPool) : ThreadPool :=
  mkPool (threads_ p) (initThreadSize_ p) (taskSize_ p) (idleThreadSize_ p)
    (curThreadSize_ p) (taskQueMaxThreshHold_ p) (threadSizeThreshHold_ p)
    (poolMode_ p) v (taskQue_ p).
Definition set_taskQue_ (v : list TaskAddr) (p : ThreadPool) : ThreadPool :=
  mkPool (threads_ p) (initThreadSize_ p) (taskSize_ p) (idleThreadSize_ p)
    (curThreadSize_ p) (taskQueMaxThreshHold_ p) (threadSizeThreshHold_ p)
    (poolMode_ p) (isPoolRunning_ p) v.

(** [ThreadPool::ThreadPool()] (lines 12-21). *)
Definition ThreadPool_ctor : ThreadPool :=
  mkPool ∅ 0 0 0 0 TASK_MAX_THRESHHOLD THREAD_MAX_THRESHHOLD MODE_FIXED false [].

(** [ThreadPool::checkRunningState] (lines 248-251). *)
Definition checkRunningState (p : ThreadPool) : bool := isPoolRunning_ p.

(** [ThreadPool::setMode] (lines 36-41). *)
Definition setMode (mode : PoolMode) (p : ThreadPool) : ThreadPool :=
  if checkRunningState p then p else set_poolMode_ mode p.

(** [ThreadPool::setTaskQueMaxThreshHold] (lines 44-49). *)
Definition setTaskQueMaxThreshHold (threshhold : Z) (p : ThreadPool) : ThreadPool :=
  if checkRunningState p then p else set_taskQueMaxThreshHold_ threshhold p.

(** [ThreadPool::setThreadSizeThreshHold] (lines 52-60). *)
Definition setThreadSizeThreshHold (threshhold : Z) (p : ThreadPool) : ThreadPool :=
  if checkRunningState p then p
  else if PoolMode_eqb (poolMode_ p) MODE_CACHED
       then set_threadSizeThreshHold_ threshhold p
       else p.

(** The first statement of [ThreadPool::~ThreadPool] (line 26); it is run
    without the lock. *)
Definition dtor_begin (p : ThreadPool) : ThreadPool := set_isPoolRunning_ false p.

(** The predicate of the wait that ends the destructor (line 32): it returns
    once the registry is empty. *)
Definition dtor_may_return (p : ThreadPool) : bool :=
  bool_decide (size (threads_ p) = 0%nat).

(** ** Tasks, results and the program state *)

(** Modelled from the spec: the value box [Any] of the absent header, "a
    type-erased value container that can hold an arbitrary payload".  An
    empty box is what a default-constructed or moved-from [Any] is; the
    literal returned by [Result::get] on an invalid future is a box holding
    a C string. *)
Inductive Any (Val : Type) : Type :=
| Any_none
| Any_cstr (s : string)
| Any_box (v : Val).
Arguments Any_none {Val}.
Arguments Any_cstr {Val} s.
Arguments Any_box {Val} v.

(** A [Task]: the virtual [run] of the subclass, which may act on the rest
    of the program (the [World]) and produces a value, and the raw pointer
    [result_] to the future, null until [setResult]. *)
Record Task (World Val : Type) := mkTask {
  run : World → Any Val * World;
  result_ : option ResultAddr
}.
Arguments mkTask {World Val} run result_.
Arguments run {World Val} t w.
Arguments result_ {World Val} t.

(** A [Result].  Modelled from the spec: its semaphore [sem_] (class
    Semaphore of the absent header) is "a counting wait/signal primitive":
    a counter that [post] increments and on which [wait] blocks while it is
    zero and that it then decrements. *)
Record Result (Val : Type) := mkResult {
  isValid_ : bool;
  task_ : TaskAddr;
  any_ : Any Val;
  sem_ : nat
}.
Arguments mkResult {Val} isValid_ task_ any_ sem_.
Arguments isValid_ {Val} r.
Arguments task_ {Val} r.
Arguments any_ {Val} r.
Arguments sem_ {Val} r.

(** Where a detached worker thread stands in [threadFunc]. *)
Inductive WorkerPc :=
| AtEntry                     (* created, line 140 not yet run *)
| AtLoopTop                   (* line 143: about to take the lock *)
| InWaitFor                   (* parked at line 177, lock released *)
| InWait                      (* parked at line 201, lock released *)
| AtExec (task : TaskAddr)    (* line 237: lock released, task in hand *)
| AfterExec                   (* line 243: the task has been executed *)
| Exited.                     (* returned at line 170 or 194 *)

Record Worker := mkWorker {
  w_threadid : Z;
  w_pc : WorkerPc;
  w_lastTime : Z
}.

(** The whole program: the pool, the static [Thread::generateId_], the heap
    of tasks and of results, the detached threads, the world the tasks act
    on, and two history variables that record the tasks in the order in
    which they were put into and taken out of [taskQue_].  Objects on the
    heap stay where they are: the callers keep their tasks and futures
    alive, so no address is freed or used again. *)
Record State (World Val : Type) := mkState {
  pool : ThreadPool;
  generateId_ : Z;
  tasks : list (Task World Val);
  results : list (Result Val);
  workers : list Worker;
  world : World;
  hist_enq : list TaskAddr;
  hist_deq : list TaskAddr
}.
Arguments mkState {World Val}.
Arguments pool {World Val} s.
Arguments generateId_ {World Val} s.
Arguments tasks {World Val} s.
Arguments results {World Val} s.
Arguments workers {World Val} s.
Arguments world {World Val} s.
Arguments hist_enq {World Val} s.
Arguments hist_deq {World Val} s.

Inductive cv_status := no_timeout | timeout.

(** Where a caller stands in [submitTask]. *)
Inductive SubmitPc :=
| AtSubmitEntry      (* line 66: about to take the lock *)
| InNotFullWait.     (* parked inside the wait_for of line 70 *)

(** What [Result::get] does when called. *)
Inductive get_outcome (Val : Type) : Type :=
| get_blocks
| get_returns (a : Any Val) (r : Result Val).
Arguments get_blocks {Val}.
Arguments get_returns {Val} a r.

Section Program.
Context {World Val : Type}.

#[local] Abbreviation state := (State World Val).

Definition set_pool (v : ThreadPool) (s : state) : state :=
  mkState v (generateId_ s) (tasks s) (results s) (workers s) (world s)
    (hist_enq s) (hist_deq s).
Definition set_generateId_ (v : Z) (s : state) : state :=
  mkState (pool s) v (tasks s) (results s) (workers s) (world s)
    (hist_enq s) (hist_deq s).
Definition set_tasks (v : list (Task World Val)) (s : state) : state :=
  mkState (pool s) (generateId_ s) v (results s) (workers s) (world s)
    (hist_enq s) (hist_deq s).
Definition set_results (v : list (Result Val)) (s : state) : state :=
  mkState (pool s) (generateId_ s) (tasks s) v (workers s) (world s)
    (hist_enq s) (hist_deq s).
Definition set_workers (v : list Worker) (s : state) : state :=
  mkState (pool s) (generateId_ s) (tasks s) (results s) v (world s)
    (hist_enq s) (hist_deq s).
Definition set_world (v : World) (s : state) : state :=
  mkState (pool s) (generateId_ s) (tasks s) (results s) (workers s) v
    (hist_enq s) (hist_deq s).
Definition set_hist_enq (v : list TaskAddr) (s : state) : state :=
  mkState (pool s) (generateId_ s) (tasks s) (results s) (workers s) (world s)
    v (hist_deq s).
Definition set_hist_deq (v : list TaskAddr) (s : state) : state :=
  mkState (pool s) (generateId_ s) (tasks s) (results s) (workers s) (world s)
    (hist_enq s) v.

(** *** Thread (lines 254-276) *)

(** [Thread::Thread]: takes the next identifier, [generateId_++]. *)
Definition Thread_ctor (s : state) : Thread * state :=
  (mkThread (generateId_ s), set_generateId_ (incr (generateId_ s)) s).

(** [Thread::getId]. *)
Definition Thread_getId (t : Thread) : Z := threadId_ t.

(** [Thread::start]: a detached thread that runs [threadFunc(threadId_)]. *)
Definition Thread_start (t : Thread) (s : state) : state :=
  set_workers (workers s ++ [mkWorker (threadId_ t) AtEntry 0]) s.

(** [threads_.emplace(k, v)]: no effect when the key is present. *)
Definition emplace (k : Z) (v : Thread) (m : gmap Z Thread) : gmap Z Thread :=
  match m !! k with
  | Some _ => m
  | None => <[k:=v]> m
  end.

(** *** Task and Result (lines 280-320) *)

(** [Task::Task]. *)
Definition Task_ctor (r : World → Any Val * World) : Task World Val :=
  mkTask r None.

(** [Task::setResult]. *)
Definition Task_setResult (res : ResultAddr) (t : Task World Val) : Task World Val :=
  mkTask (run t) (Some res).

(** [Result::setVal]: stores the value and posts the semaphore. *)
Definition Result_setVal (a : Any Val) (r : Result Val) : Result Val :=
  mkResult (isValid_ r) (task_ r) a (S (sem_ r)).

(** [Result::get]: an invalid result hands out the literal at once; a valid
    one waits on the semaphore and then moves the stored value out. *)
Definition Result_get (r : Result Val) : get_outcome Val :=
  if negb (isValid_ r) then get_returns (Any_cstr "") r
  else match sem_ r with
       | O => get_blocks
       | S n => get_returns (any_ r) (mkResult (isValid_ r) (task_ r) Any_none n)
       end.

(** [Result::Result(task, isValid)]: the new object is placed at a fresh
    address and the task is pointed at it, [task_->setResult(this)].  [None]
    is the dereference of a pointer to no task. *)
Definition Result_ctor (task : TaskAddr) (isValid : bool) (s : state)
  : option (ResultAddr * state) :=
  t ← tasks s !! task;
  let this := length (results s) in
  Some (this,
        set_tasks (<[task := Task_setResult this t]> (tasks s))
          (set_results (results s ++ [mkResult isValid task Any_none O]) s)).

(** [Task::exec]: [run] is called, and its value published, only under the
    guard [result_ != nullptr]. *)
Definition Task_exec (task : TaskAddr) (s : state) : option state :=
  t ← tasks s !! task;
  match result_ t with
  | None => Some s
  | Some res =>
      let '(a, w) := run t (world s) in
      r ← results s !! res;
      Some (set_results (<[res := Result_setVal a r]> (results s)) (set_world w s))
  end.

End Program.

Section Pool.
Context {World Val : Type}.

#[local] Abbreviation state := (State World Val).

(** *** submitTask (lines 63-107) *)

(** The predicate of the bounded wait (line 71). *)
Definition notFull_pred (p : ThreadPool) : bool :=
  Z.of_nat (length (taskQue_ p)) <? to_size_t (taskQueMaxThreshHold_ p).

(** Lines 94-101: a new [Thread] is made, registered, started and counted. *)
Definition spawn_thread (s : state) : option state :=
  let '(ptr, s1) := Thread_ctor s in
  let threadId := Thread_getId ptr in
  let p1 := set_threads_ (emplace threadId ptr (threads_ (pool s1))) (pool s1) in
  t ← threads_ p1 !! threadId;
  let s2 := Thread_start t (set_pool p1 s1) in
  let p2 := set_curThreadSize_ (incr (curThreadSize_ (pool s2))) (pool s2) in
  let p3 := set_idleThreadSize_ (incr (idleThreadSize_ p2)) p2 in
  Some (set_pool p3 s2).

(** The test of line 87-89. *)
Definition must_grow (p : ThreadPool) : bool :=
  PoolMode_eqb (poolMode_ p) MODE_CACHED
  && (taskSize_ p >? idleThreadSize_ p)
  && (curThreadSize_ p <? threadSizeThreshHold_ p).

(** Lines 80-105: the task goes to the tail of the queue, the pool grows by
    one thread when [must_grow], and a valid [Result] is returned. *)
Definition submitTask_accept (sp : TaskAddr) (s : state) : option (ResultAddr * state) :=
  let p := pool s in
  let p1 := set_taskSize_ (incr (taskSize_ p)) (set_taskQue_ (taskQue_ p ++ [sp]) p) in
  let s1 := set_hist_enq (hist_enq s ++ [sp]) (set_pool p1 s) in
  s2 ← (if must_grow p1 then spawn_thread s1 else Some s1);
  Result_ctor sp true s2.

(** Lines 74-76: the rejection. *)
Definition submitTask_reject (sp : TaskAddr) (s : state) : option (ResultAddr * state) :=
  Result_ctor sp false s.

(** One step of a caller inside [submitTask], with the lock held.  The wait
    of line 70 is [while (!pred()) if (wait_until(..) == timeout) return
    pred(); return true]: at the entry and at each wake-up the predicate is
    evaluated; the call goes on as soon as it holds, gives up when it fails
    at a wake-up by timeout, and parks again otherwise.  The step returns the
    future when the call returns, and [None] for it while the caller is
    parked. *)
Definition submitTask_step (pc : SubmitPc) (st : cv_status) (sp : TaskAddr) (s : state)
  : option (option ResultAddr * state) :=
  if notFull_pred (pool s) then
    '(r, s') ← submitTask_accept sp s; Some (Some r, s')
  else
    match pc, st with
    | InNotFullWait, timeout =>
        '(r, s') ← submitTask_reject sp s; Some (Some r, s')
    | _, _ => Some (None, s)
    end.

(** *** start (lines 110-135) *)

(** The first loop (lines 120-127), [n] iterations to go. *)
Fixpoint start_create (n : nat) (s : state) : state :=
  match n with
  | O => s
  | S k =>
      let '(ptr, s1) := Thread_ctor s in
      let threadId := Thread_getId ptr in
      start_create k
        (set_pool (set_threads_ (emplace threadId ptr (threads_ (pool s1))) (pool s1)) s1)
  end.

(** The second loop (lines 130-134), at index [i] with [n] iterations to go.
    [threads_[i]] is looked up by the loop index; when no thread is
    registered under [i] the subscript yields a null pointer and the call
    through it has no defined behaviour: [None]. *)
Fixpoint start_launch (n : nat) (i : Z) (s : state) : option state :=
  match n with
  | O => Some s
  | S k =>
      t ← threads_ (pool s) !! i;
      let s1 := Thread_start t s in
      let p1 := set_idleThreadSize_ (incr (idleThreadSize_ (pool s1))) (pool s1) in
      start_launch k (i + 1) (set_pool p1 s1)
  end.

Definition start (initThreadSize : Z) (s : state) : option state :=
  let p := pool s in
  let p1 := set_curThreadSize_ initThreadSize
              (set_initThreadSize_ initThreadSize (set_isPoolRunning_ true p)) in
  let s1 := set_pool p1 s in
  let n := Z.to_nat (initThreadSize_ p1) in
  start_launch n 0 (start_create n s1).

(** *** threadFunc (lines 138-246) *)

(** Clock readings are in nanoseconds; [duration_cast<seconds>] truncates. *)
Definition duration_cast_seconds (d : Z) : Z := Z.quot d 1000000000.

Definition erase_thread (threadid : Z) (p : ThreadPool) : ThreadPool :=
  set_threads_ (delete threadid (threads_ p)) p.

(** Lines 214-222: the head of the queue is taken. *)
Definition take_task (task : TaskAddr) (rest : list TaskAddr) (s : state) : state :=
  let p := pool s in
  let p1 := set_idleThreadSize_ (decr (idleThreadSize_ p)) p in
  let p2 := set_taskQue_ rest p1 in
  let p3 := set_taskSize_ (decr (taskSize_ p2)) p2 in
  set_hist_deq (hist_deq s ++ [task]) (set_pool p3 s).

(** From the test of the [while] of line 161, with the lock held, to the
    next point at which the lock is given up: the thread returns (line 170),
    parks (line 177 or 201), or leaves with a task (line 233). *)
Definition wait_loop (threadid : Z) (s : state) : WorkerPc * state :=
  let p := pool s in
  match taskQue_ p with
  | [] =>
      if negb (isPoolRunning_ p) then
        (Exited, set_pool (erase_thread threadid p) s)
      else if PoolMode_eqb (poolMode_ p) MODE_CACHED then (InWaitFor, s)
      else (InWait, s)
  | task :: rest => (AtExec task, take_task task rest s)
  end.

(** The test of lines 181-182. *)
Definition must_reclaim (now lastTime : Z) (p : ThreadPool) : bool :=
  (duration_cast_seconds (now - lastTime) >=? THREAD_MAX_IDLE_TIME)
  && (curThreadSize_ p >? initThreadSize_ p).

(** Lines 188-194. *)
Definition reclaim (threadid : Z) (p : ThreadPool) : ThreadPool :=
  let p1 := erase_thread threadid p in
  let p2 := set_curThreadSize_ (decr (curThreadSize_ p1)) p1 in
  set_idleThreadSize_ (decr (idleThreadSize_ p2)) p2.

(** The wake-up from the [wait_for] of line 177, at time [now]. *)
Definition after_wait_for (st : cv_status) (now : Z) (w : Worker) (s : state)
  : WorkerPc * state :=
  match st with
  | timeout =>
      if must_reclaim now (w_lastTime w) (pool s)
      then (Exited, set_pool (reclaim (w_threadid w) (pool s)) s)
      else wait_loop (w_threadid w) s
  | no_timeout => wait_loop (w_threadid w) s
  end.

(** One step of a worker thread; a thread that has returned takes none. *)
Definition threadFunc_step (st : cv_status) (now : Z) (w : Worker) (s : state)
  : option (Worker * state) :=
  match w_pc w with
  | AtEntry => Some (mkWorker (w_threadid w) AtLoopTop now, s)
  | AtLoopTop | InWait =>
      let '(pc, s') := wait_loop (w_threadid w) s in
      Some (mkWorker (w_threadid w) pc (w_lastTime w), s')
  | InWaitFor =>
      let '(pc, s') := after_wait_for st now w s in
      Some (mkWorker (w_threadid w) pc (w_lastTime w), s')
  | AtExec task =>
      s' ← Task_exec task s;
      Some (mkWorker (w_threadid w) AfterExec (w_lastTime w), s')
  | AfterExec =>
      let p := pool s in
      Some (mkWorker (w_threadid w) AtLoopTop now,
            set_pool (set_idleThreadSize_ (incr (idleThreadSize_ p)) p) s)
  | Exited => None
  end.

(** ** The program as a transition system *)

Inductive Action :=
| Call_setMode (mode : PoolMode)
| Call_setTaskQueMaxThreshHold (threshhold : Z)
| Call_setThreadSizeThreshHold (threshhold : Z)
| Call_start (initThreadSize : Z)
| Make_task (r : World → Any Val * World)
| Step_submitTask (pc : SubmitPc) (st : cv_status) (sp : TaskAddr)
| Step_threadFunc (i : nat) (st : cv_status) (now : Z)
| Call_get (res : ResultAddr)
| Begin_dtor.

(** One step.  The [int] arguments of the calls are read through [to_int].
    [None] is a step that cannot be taken or that has no defined behaviour.
    A [get] that blocks leaves the state as it is. *)
Definition step (a : Action) (s : state) : option state :=
  match a with
  | Call_setMode mode => Some (set_pool (setMode mode (pool s)) s)
  | Call_setTaskQueMaxThreshHold n =>
      Some (set_pool (setTaskQueMaxThreshHold (to_int n) (pool s)) s)
  | Call_setThreadSizeThreshHold n =>
      Some (set_pool (setThreadSizeThreshHold (to_int n) (pool s)) s)
  | Call_start n => start (to_int n) s
  | Make_task r => Some (set_tasks (tasks s ++ [Task_ctor r]) s)
  | Step_submitTask pc st sp => snd <$> submitTask_step pc st sp s
  | Step_threadFunc i st now =>
      w ← workers s !! i;
      '(w', s') ← threadFunc_step st now w s;
      Some (set_workers (<[i := w']> (workers s')) s')
  | Call_get res =>
      r ← results s !! res;
      match Result_get r with
      | get_blocks => Some s
      | get_returns _ r' => Some (set_results (<[res := r']> (results s)) s)
      end
  | Begin_dtor => Some (set_pool (dtor_begin (pool s)) s)
  end.

Fixpoint exec_actions (acts : list Action) (s : state) : option state :=
  match acts with
  | [] => Some s
  | a :: rest => s' ← step a s; exec_actions rest s'
  end.

(** The program before [main] has run anything: a fresh pool. *)
Definition initial (w : World) : state :=
  mkState ThreadPool_ctor 0 [] [] [] w [] [].

Definition reachable (s : state) : Prop :=
  ∃ w acts, exec_actions acts (initial w) = Some s.

End Pool.

(** ** Predicates used by the statements *)

(** The task at [sp] points at the result at [r]. *)
Definition attached {World Val : Type} (s : State World Val)
    (sp : TaskAddr) (r : ResultAddr) : Prop :=
  ∃ t, tasks s !! sp = Some t ∧ result_ t = Some r.

(** The future [r] of the task [sp] is still to be served: the task points
    at it and nothing has been published into it. *)
Definition pending {World Val : Type} (s : State World Val)
    (sp : TaskAddr) (r : ResultAddr) : Prop :=
  attached s sp r ∧ results s !! r = Some (mkResult true sp Any_none O).

(** Every back pointer of a task leads to a result made for that task. *)
Definition heap_ok {World Val : Type} (s : State World Val) : Prop :=
  ∀ sp t r, tasks s !! sp = Some t → result_ t = Some r →
    ∃ R, results s !! r = Some R ∧ task_ R = sp.

(** The step [a], taken in [s], is a worker running [exec] on the task [sp]. *)
Definition executes {World Val : Type} (a : @Action World Val)
    (s : State World Val) (sp : TaskAddr) : Prop :=
  ∃ i st now w, a = Step_threadFunc i st now ∧ workers s !! i = Some w
                ∧ w_pc w = AtExec sp.

(** The step [a] is a step of a call [submitTask(sp)]. *)
Definition submits {World Val : Type} (a : @Action World Val) (sp : TaskAddr) : Prop :=
  ∃ pc st, a = Step_submitTask pc st sp.

(** From [s] to [s'] by steps among which the task [sp] is neither handed to
    [submitTask] again nor executed. *)
Inductive undisturbed {World Val : Type} (sp : TaskAddr)
  : State World Val → State World Val → Prop :=
| undisturbed_refl s : undisturbed sp s s
| undisturbed_step s s' s'' a :
    undisturbed sp s s' →
    step a s' = Some s'' →
    ¬ submits a sp →
    ¬ executes a s' sp →
    undisturbed sp s s''.

(** The counters and thresholds hold [int]s. *)
Definition ints_ok (p : ThreadPool) : Prop :=
  is_int (initThreadSize_ p) ∧ is_int (curThreadSize_ p)
  ∧ is_int (threadSizeThreshHold_ p).

(** The calls that keep the worker count under its threshold: [start] with a
    count within the threshold, and the threshold setter when it is ignored
    or sets a threshold the count is within. *)
Definition within_threshold {World Val : Type} (a : @Action World Val)
    (s : State World Val) : Prop :=
  match a with
  | Call_start n => to_int n <= threadSizeThreshHold_ (pool s)
  | Call_setThreadSizeThreshHold n =>
      isPoolRunning_ (pool s) = true ∨ curThreadSize_ (pool s) <= to_int n
  | _ => True
  end.

(** ** Sample programs, for the closed instances below *)

(** A task whose [run] counts its calls in the world and returns [v]. *)
Definition counting_task (v : Z) : nat → Any Z * nat :=
  fun w => (Any_box v, S w).

(** The state a program of steps ends in, from a fresh pool and world 0. *)
Definition after (acts : list (@Action nat Z)) : State nat Z :=
  default (initial 0%nat) (exec_actions acts (initial 0%nat)).

(** One task is made and never submitted. *)
Definition task_made : list (@Action nat Z) := [Make_task (counting_task 7)].

(** A task is made and a fresh pool is started with one worker. *)
Definition started : list (@Action nat Z) :=
  [Make_task (counting_task 7); Call_start 1].

(** Then the task is submitted. *)
Definition submit_first : @Action nat Z :=
  Step_submitTask AtSubmitEntry no_timeout 0%nat.
Definition one_task_queued : list (@Action nat Z) := started ++ [submit_first].

(** The same, and the destructor has cleared the running flag. *)
Definition teardown_with_task_queued : list (@Action nat Z) :=
  one_task_queued ++ [Begin_dtor].

(** The only worker enters [threadFunc], takes the lock and goes on up to the
    call of [exec]; then it runs [exec]. *)
Definition worker_takes : list (@Action nat Z) :=
  [Step_threadFunc 0 no_timeout 5; Step_threadFunc 0 no_timeout 5].
Definition worker_runs : @Action nat Z := Step_threadFunc 0 no_timeout 6.

(** One task object is submitted, and then submitted again, and the worker
    executes both queue entries. *)
Definition submitted_again : list (@Action nat Z) :=
  [Step_submitTask AtSubmitEntry no_timeout 0%nat].
Definition worker_serves_both : list (@Action nat Z) :=
  [Step_threadFunc 0 no_timeout 5; Step_threadFunc 0 no_timeout 5;
   Step_threadFunc 0 no_timeout 6; Step_threadFunc 0 no_timeout 7;
   Step_threadFunc 0 no_timeout 8; Step_threadFunc 0 no_timeout 9].

(** A pool whose queue threshold was set to -1 before any start, and one
    task, which is then submitted. *)
Definition negative_threshold : list (@Action nat Z) :=
  [Make_task (counting_task 7); Call_setTaskQueMaxThreshHold (-1)].
Definition negative_threshold_submit : list (@Action nat Z) :=
  negative_threshold ++ [submit_first].

(** A full queue of capacity one, with a second task to submit. *)
Definition queue_full : list (@Action nat Z) :=
  [Make_task (counting_task 7); Make_task (counting_task 8);
   Call_setTaskQueMaxThreshHold 1;
   Step_submitTask AtSubmitEntry no_timeout 0%nat].

(** An elastic pool with one worker at baseline and one task submitted; the
    submission of a second task then grows the pool. *)
Definition elastic_busy : list (@Action nat Z) :=
  [Make_task (counting_task 7); Make_task (counting_task 8);
   Call_setMode MODE_CACHED; Call_start 1;
   Step_submitTask AtSubmitEntry no_timeout 0%nat].
Definition submit_second : @Action nat Z :=
  Step_submitTask AtSubmitEntry no_timeout 1%nat.
Definition elastic_burst : list (@Action nat Z) := elastic_busy ++ [submit_second].

(** A fresh pool, in its default configuration, started with 1025 workers. *)
Definition oversized_start : list (@Action nat Z) := [Call_start 1025].

(** ** Further predicates and sample programs *)

(** Every entry of the registry holds the [Thread] whose identifier is the
    key it is filed under. *)
Definition registry_ok (p : ThreadPool) : Prop :=
  ∀ k t, threads_ p !! k = Some t → threadId_ t = k.

(** Every task in the queue, and every task a worker has in hand, is a task
    on the heap. *)
Definition tasks_ok {World Val : Type} (s : State World Val) : Prop :=
  (∀ t, t ∈ taskQue_ (pool s) → is_Some (tasks s !! t))
  ∧ (∀ w t, w ∈ workers s → w_pc w = AtExec t → is_Some (tasks s !! t)).

(** The workers that [start] launches for the identifiers [i], [i+1], ... *)
Fixpoint launched (n : nat) (i : Z) : list Worker :=
  match n with
  | O => []
  | S k => mkWorker i AtEntry 0 :: launched k (i + 1)
  end.

(** [setVal] called with each of the values [vals] in turn. *)
Definition publish {Val : Type} (vals : list (Any Val)) (r : Result Val) : Result Val :=
  fold_left (λ r0 a, Result_setVal a r0) vals r.

(** [n] calls of [get] in a row: the values they return and the result they
    leave, or [None] when one of the calls blocks. *)
Fixpoint gets {Val : Type} (n : nat) (r : Result Val)
  : option (list (Any Val) * Result Val) :=
  match n with
  | O => Some ([], r)
  | S k =>
      match Result_get r with
      | get_blocks => None
      | get_returns a r' => '(l, r'') ← gets k r'; Some (a :: l, r'')
      end
  end.

(** Each of the [n] workers at the positions [i], [i+1], ... of the list of
    detached threads takes two steps in turn: it enters [threadFunc] and it
    takes the lock and goes through the loop of line 161. *)
Fixpoint workers_run_to_test {World Val : Type} (n i : nat) (now : Z)
  : list (@Action World Val) :=
  match n with
  | O => []
  | S k =>
      Step_threadFunc i no_timeout now :: Step_threadFunc i no_timeout now
        :: workers_run_to_test k (S i) now
  end.

(** A pool is started with [n] workers and destroyed at once; then every
    worker gets to run. *)
Definition start_then_teardown {World Val : Type} (n now : Z)
  : list (@Action World Val) :=
  Call_start n :: Begin_dtor :: workers_run_to_test (Z.to_nat n) 0 now.

(** Whether a worker that wakes with the status [st] at the time [now]
    leaves by the reclaim of lines 181-194: it does when it wakes from the
    timed wait by timeout and the test of lines 181-182 holds. *)
Definition reclaims (st : cv_status) (now : Z) (w : Worker) (p : ThreadPool) : bool :=
  match w_pc w, st with
  | InWaitFor, timeout => must_reclaim now (w_lastTime w) p
  | _, _ => false
  end.

(** An elastic pool is started with no worker; the first task makes the
    thread 0, which executes it and parks in the timed wait, one second
    after its entry; a second task is queued and the destructor clears the
    running flag. *)
Definition elastic_parked : list (@Action nat Z) :=
  [Make_task (counting_task 7); Make_task (counting_task 8);
   Call_setMode MODE_CACHED; Call_start 0;
   Step_submitTask AtSubmitEntry no_timeout 0%nat;
   Step_threadFunc 0 no_timeout 0; Step_threadFunc 0 no_timeout 0;
   Step_threadFunc 0 no_timeout 0; Step_threadFunc 0 no_timeout 1000000000;
   Step_threadFunc 0 no_timeout 1000000000;
   Step_submitTask AtSubmitEntry no_timeout 1%nat;
   Begin_dtor].

(** Two tasks are submitted to a pool with one worker, which takes and
    executes the first and then takes the second. *)
Definition two_tasks_served : list (@Action nat Z) :=
  [Make_task (counting_task 7); Make_task (counting_task 8); Call_start 1;
   Step_submitTask AtSubmitEntry no_timeout 0%nat;
   Step_submitTask AtSubmitEntry no_timeout 1%nat;
   Step_threadFunc 0 no_timeout 5; Step_threadFunc 0 no_timeout 5;
   Step_threadFunc 0 no_timeout 6; Step_threadFunc 0 no_timeout 7;
   Step_threadFunc 0 no_timeout 8].

(** An elastic pool takes a task before it is started: the submission makes
    the thread 0, which executes the task, finds the queue empty and the
    pool not running, and returns. *)
Definition early_growth : list (@Action nat Z) :=
  [Make_task (counting_task 7); Call_setMode MODE_CACHED;
   Step_submitTask AtSubmitEntry no_timeout 0%nat;
   Step_threadFunc 0 no_timeout 5; Step_threadFunc 0 no_timeout 5;
   Step_threadFunc 0 no_timeout 6; Step_threadFunc 0 no_timeout 7;
   Step_threadFunc 0 no_timeout 8].

(** ** Machine integer facts *)

Lemma to_int_range z : is_int (to_int z).
Proof.
  unfold is_int, to_int, INT32_MIN, INT32_MAX.
  pose proof (Z.mod_pos_bound (z + 2147483648) 4294967296 eq_refl). lia.
Qed.

Lemma to_int_id z : is_int z → to_int z = z.
Proof.
  unfold is_int, to_int, INT32_MIN, INT32_MAX. intros H.
  rewrite Z.mod_small by lia. lia.
Qed.

Lemma to_size_t_nonneg x : 0 <= x → to_size_t x <= x.
Proof.
  intros H. unfold to_size_t. apply Z.mod_le; lia.
Qed.

Lemma PoolMode_eqb_eq a b : PoolMode_eqb a b = true ↔ a = b.
Proof. destruct a, b; simpl; split; congruence. Qed.

(** For a threshold that is not negative, the predicate of line 71 fails
    exactly when the queue is at or above the threshold. *)
Lemma notFull_pred_false_iff (p : ThreadPool) :
  0 <= taskQueMaxThreshHold_ p → is_int (taskQueMaxThreshHold_ p) →
  notFull_pred p = false
  ↔ taskQueMaxThreshHold_ p <= Z.of_nat (length (taskQue_ p)).
Proof.
  intros Hnn [_ Hmax]. unfold notFull_pred, to_size_t, INT32_MAX in *.
  rewrite Z.mod_small by lia. rewrite Z.ltb_ge. done.
Qed.

(** ** The configuration setters *)

Lemma set_pool_same {World Val : Type} (s : State World Val) : set_pool (pool s) s = s.
Proof. by destruct s. Qed.

(** C9: on a running pool the three setters return the pool as it was, and
    the program state around it is untouched as well, whatever the argument. *)
Theorem setters_frozen_once_running {World Val : Type} (s : State World Val)
    (mode : PoolMode) (q t : Z) :
  isPoolRunning_ (pool s) = true →
  setMode mode (pool s) = pool s
  ∧ setTaskQueMaxThreshHold q (pool s) = pool s
  ∧ setThreadSizeThreshHold t (pool s) = pool s
  ∧ step (Call_setMode mode) s = Some s
  ∧ step (Call_setTaskQueMaxThreshHold q) s = Some s
  ∧ step (Call_setThreadSizeThreshHold t) s = Some s.
Proof.
  intros Hrun.
  assert (H1 : setMode mode (pool s) = pool s)
    by (unfold setMode, checkRunningState; by rewrite Hrun).
  assert (H2 : ∀ n, setTaskQueMaxThreshHold n (pool s) = pool s)
    by (intros n; unfold setTaskQueMaxThreshHold, checkRunningState; by rewrite Hrun).
  assert (H3 : ∀ n, setThreadSizeThreshHold n (pool s) = pool s)
    by (intros n; unfold setThreadSizeThreshHold, checkRunningState; by rewrite Hrun).
  repeat split; auto; simpl.
  - by rewrite H1, set_pool_same.
  - by rewrite H2, set_pool_same.
  - by rewrite H3, set_pool_same.
Qed.

(** C10: before the start, in fixed mode, [setThreadSizeThreshHold] returns
    the pool as it was, so the worker count threshold keeps its value. *)
Theorem setThreadSizeThreshHold_ignored_in_fixed_mode (p : ThreadPool) (threshhold : Z) :
  isPoolRunning_ p = false →
  poolMode_ p = MODE_FIXED →
  setThreadSizeThreshHold threshhold p = p
  ∧ threadSizeThreshHold_ (setThreadSizeThreshHold threshhold p) = threadSizeThreshHold_ p.
Proof.
  intros Hrun Hmode. unfold setThreadSizeThreshHold, checkRunningState.
  rewrite Hrun, Hmode. by simpl.
Qed.

(** The other half of the case split: before the start, in cached mode, the
    threshold is taken. *)
Lemma setThreadSizeThreshHold_taken_in_cached_mode (p : ThreadPool) (threshhold : Z) :
  isPoolRunning_ p = false →
  poolMode_ p = MODE_CACHED →
  threadSizeThreshHold_ (setThreadSizeThreshHold threshhold p) = threshhold.
Proof.
  intros Hrun Hmode. unfold setThreadSizeThreshHold, checkRunningState.
  rewrite Hrun, Hmode. by simpl.
Qed.

(** ** Task::exec *)

Lemma Task_exec_unattached {World Val : Type} (s : State World Val)
    (task : TaskAddr) (t : Task World Val) :
  tasks s !! task = Some t → result_ t = None → Task_exec task s = Some s.
Proof. intros Ht Hn. unfold Task_exec. rewrite Ht. simpl. by rewrite Hn. Qed.

Lemma Task_exec_attached {World Val : Type} (s : State World Val)
    (task : TaskAddr) (t : Task World Val) (res : ResultAddr) (r : Result Val) :
  tasks s !! task = Some t → result_ t = Some res → results s !! res = Some r →
  Task_exec task s =
    Some (set_results
            (<[res := Result_setVal (fst (run t (world s))) r]> (results s))
            (set_world (snd (run t (world s))) s)).
Proof.
  intros Ht Hres Hr. unfold Task_exec. rewrite Ht. simpl. rewrite Hres.
  destruct (run t (world s)) as [a w]. simpl. by rewrite Hr.
Qed.

(** C4, as the code has it: [exec] calls [run] and publishes its value into
    the attached result exactly when a result is attached; with none
    attached it returns at once and leaves the whole state, the world
    included, as it was. *)
Theorem Task_exec_runs_only_when_attached {World Val : Type} (s : State World Val)
    (task : TaskAddr) (t : Task World Val) :
  tasks s !! task = Some t →
  match result_ t with
  | None => Task_exec task s = Some s
  | Some res =>
      ∀ r, results s !! res = Some r →
        Task_exec task s =
          Some (set_results
                  (<[res := Result_setVal (fst (run t (world s))) r]> (results s))
                  (set_world (snd (run t (world s))) s))
  end.
Proof.
  intros Ht. destruct (result_ t) as [res|] eqn:Hres.
  - intros r Hr. by apply Task_exec_attached.
  - by apply (Task_exec_unattached s task t).
Qed.

(** ** submitTask: the rejection and the bound on the queue *)

Lemma Result_ctor_spec {World Val : Type} (s : State World Val) sp valid t :
  tasks s !! sp = Some t →
  Result_ctor sp valid s =
    Some (length (results s),
          set_tasks (<[sp := Task_setResult (length (results s)) t]> (tasks s))
            (set_results (results s ++ [mkResult valid sp Any_none O]) s)).
Proof. intros Ht. unfold Result_ctor. by rewrite Ht. Qed.

Lemma Result_ctor_inv {World Val : Type} (s s' : State World Val) sp valid r :
  Result_ctor sp valid s = Some (r, s') →
  ∃ t, tasks s !! sp = Some t ∧ r = length (results s)
       ∧ s' = set_tasks (<[sp := Task_setResult r t]> (tasks s))
                (set_results (results s ++ [mkResult valid sp Any_none O]) s).
Proof.
  unfold Result_ctor. destruct (tasks s !! sp) as [t|] eqn:Ht; simpl; [|done].
  intros [= <- <-]. eauto.
Qed.

(** C3, as the code has it: while the queue is at or above the threshold
    as line 71 compares them, that is with the threshold converted to
    [size_t] (for a threshold that is not negative: at or above the
    threshold itself), a caller of [submitTask] stays parked until its wait
    times out; the step at the timeout returns a future and leaves the pool,
    its queue and its task counter as they were; the future is invalid and
    its [get] returns the empty literal without waiting on the semaphore. *)
Theorem submitTask_rejects_after_timeout {World Val : Type} (s : State World Val)
    (sp : TaskAddr) (t : Task World Val) :
  to_size_t (taskQueMaxThreshHold_ (pool s)) <= Z.of_nat (length (taskQue_ (pool s)))
  ∨ (0 <= taskQueMaxThreshHold_ (pool s) <= INT32_MAX
     ∧ taskQueMaxThreshHold_ (pool s) <= Z.of_nat (length (taskQue_ (pool s)))) →
  tasks s !! sp = Some t →
  notFull_pred (pool s) = false
  ∧ submitTask_step AtSubmitEntry no_timeout sp s = Some (None, s)
  ∧ submitTask_step AtSubmitEntry timeout sp s = Some (None, s)
  ∧ submitTask_step InNotFullWait no_timeout sp s = Some (None, s)
  ∧ ∃ r s' R,
      submitTask_step InNotFullWait timeout sp s = Some (Some r, s')
      ∧ pool s' = pool s
      ∧ taskQue_ (pool s') = taskQue_ (pool s)
      ∧ taskSize_ (pool s') = taskSize_ (pool s)
      ∧ hist_enq s' = hist_enq s
      ∧ results s' !! r = Some R
      ∧ isValid_ R = false
      ∧ Result_get R = get_returns (Any_cstr "") R.
Proof.
  intros Hcmp Ht.
  assert (Hfull : notFull_pred (pool s) = false).
  { unfold notFull_pred. apply Z.ltb_ge.
    destruct Hcmp as [Hc | [[Hnn _] Hc]]; [exact Hc|].
    pose proof (to_size_t_nonneg _ Hnn). lia. }
  split; [exact Hfull|].
  unfold submitTask_step. rewrite Hfull.
  repeat split; try done.
  unfold submitTask_reject. rewrite (Result_ctor_spec s sp false t Ht). simpl.
  eexists _, _, _. split; [reflexivity|]. simpl.
  rewrite lookup_app_r by lia. rewrite Nat.sub_diag. simpl.
  repeat split; reflexivity.
Qed.

Lemma spawn_thread_frame {World Val : Type} (s s' : State World Val) :
  spawn_thread s = Some s' →
  ∃ m ws g,
    s' = set_generateId_ g (set_workers ws
           (set_pool (set_idleThreadSize_ (incr (idleThreadSize_ (pool s)))
                        (set_curThreadSize_ (incr (curThreadSize_ (pool s)))
                           (set_threads_ m (pool s)))) s)).
Proof.
  unfold spawn_thread. simpl.
  destruct (emplace _ _ _ !! _) as [t|]; simpl; [|done].
  intros [= <-]. eexists _, _, _. reflexivity.
Qed.

Lemma submitTask_accept_inv {World Val : Type} (s s' : State World Val) sp r :
  submitTask_accept sp s = Some (r, s') →
  ∃ s2, Result_ctor sp true s2 = Some (r, s')
        ∧ taskQue_ (pool s2) = taskQue_ (pool s) ++ [sp]
        ∧ taskQueMaxThreshHold_ (pool s2) = taskQueMaxThreshHold_ (pool s)
        ∧ hist_enq s2 = hist_enq s ++ [sp]
        ∧ hist_deq s2 = hist_deq s
        ∧ tasks s2 = tasks s ∧ results s2 = results s ∧ world s2 = world s.
Proof.
  unfold submitTask_accept.
  destruct (must_grow _).
  - destruct (spawn_thread _) as [s2|] eqn:Hsp; simpl; [|done].
    intros Hr. exists s2. split; [done|].
    apply spawn_thread_frame in Hsp as (m & ws & g & ->). by simpl.
  - simpl. intros Hr. eexists. split; [exact Hr|]. by simpl.
Qed.

(** C7, as the code has it: a call of [submitTask] that returns a valid
    future has put its task at the tail of the queue after the predicate of
    line 71 held, so the new length is at most the threshold converted to
    [size_t], and at most the threshold itself when that is not negative. *)
Theorem submitTask_keeps_queue_within_threshold {World Val : Type}
    (s s' : State World Val) (pc : SubmitPc) (st : cv_status)
    (sp : TaskAddr) (r : ResultAddr) (R : Result Val) :
  submitTask_step pc st sp s = Some (Some r, s') →
  results s' !! r = Some R →
  isValid_ R = true →
  notFull_pred (pool s) = true
  ∧ taskQue_ (pool s') = taskQue_ (pool s) ++ [sp]
  ∧ Z.of_nat (length (taskQue_ (pool s'))) <= to_size_t (taskQueMaxThreshHold_ (pool s'))
  ∧ (0 <= taskQueMaxThreshHold_ (pool s') →
     Z.of_nat (length (taskQue_ (pool s'))) <= taskQueMaxThreshHold_ (pool s')).
Proof.
  unfold submitTask_step. intros Hstep HR Hvalid.
  destruct (notFull_pred (pool s)) eqn:Hpred.
  - destruct (submitTask_accept sp s) as [[r0 s0]|] eqn:Hacc; simpl in Hstep; [|done].
    injection Hstep as <- <-.
    apply submitTask_accept_inv in Hacc
      as (s2 & Hctor & Hq & Hthr & _).
    apply Result_ctor_inv in Hctor as (t & _ & _ & ->). simpl.
    rewrite Hq, Hthr, length_app. simpl.
    unfold notFull_pred in Hpred. apply Z.ltb_lt in Hpred.
    repeat split; try done; [lia|].
    intros Hnn. pose proof (to_size_t_nonneg _ Hnn). lia.
  - exfalso. destruct pc, st; simpl in Hstep; try done.
    unfold submitTask_reject in Hstep.
    destruct (Result_ctor sp false s) as [[r0 s0]|] eqn:Hctor; simpl in Hstep; [|done].
    injection Hstep as <- <-.
    apply Result_ctor_inv in Hctor as (t & _ & -> & ->). simpl in HR.
    rewrite lookup_app_r in HR by lia. rewrite Nat.sub_diag in HR.
    simpl in HR. injection HR as <-. done.
Qed.

(** ** The worker loop and the running flag *)

(** A worker that holds the lock at the test of its loop, or wakes from a
    wait without leaving by the reclaim, goes through [wait_loop]. *)
Lemma threadFunc_step_at_lock {World Val : Type}
    (s : State World Val) (w : Worker) (st : cv_status) (now : Z) :
  w_pc w = AtLoopTop ∨ w_pc w = InWait ∨ w_pc w = InWaitFor →
  reclaims st now w (pool s) = false →
  threadFunc_step st now w s =
    Some (mkWorker (w_threadid w) (wait_loop (w_threadid w) s).1 (w_lastTime w),
          (wait_loop (w_threadid w) s).2).
Proof.
  intros Hpc Hre. unfold threadFunc_step, reclaims in *.
  destruct Hpc as [Hpc | [Hpc | Hpc]]; rewrite Hpc in *;
    try by destruct (wait_loop _ _).
  unfold after_wait_for. destruct st; [|rewrite Hre]; by destruct (wait_loop _ _).
Qed.

(** C1, as the code has it: the running flag is read only when the queue is
    found empty.  After the flag is cleared, a worker that takes the lock or
    wakes from its wait leaves by the reclaim, without looking at the queue,
    when it woke from the timed wait by timeout and the test of lines
    181-182 holds; in every other case it takes the head of a non-empty
    queue and leaves for [exec], and it deregisters and returns, taking
    nothing, when it finds the queue empty. *)
Theorem threadFunc_drains_queue_after_teardown {World Val : Type}
    (s : State World Val) (w : Worker) (st : cv_status) (now : Z) :
  isPoolRunning_ (pool s) = false →
  w_pc w = AtLoopTop ∨ w_pc w = InWait ∨ w_pc w = InWaitFor →
  (reclaims st now w (pool s) = true →
     threadFunc_step st now w s =
       Some (mkWorker (w_threadid w) Exited (w_lastTime w),
             set_pool (reclaim (w_threadid w) (pool s)) s)
     ∧ taskQue_ (reclaim (w_threadid w) (pool s)) = taskQue_ (pool s)
     ∧ w_pc w = InWaitFor ∧ st = timeout
     ∧ THREAD_MAX_IDLE_TIME <= duration_cast_seconds (now - w_lastTime w)
     ∧ initThreadSize_ (pool s) < curThreadSize_ (pool s))
  ∧ (reclaims st now w (pool s) = false →
     (∀ task rest, taskQue_ (pool s) = task :: rest →
        threadFunc_step st now w s =
          Some (mkWorker (w_threadid w) (AtExec task) (w_lastTime w),
                take_task task rest s)
        ∧ taskQue_ (pool (take_task task rest s)) = rest
        ∧ hist_deq (take_task task rest s) = hist_deq s ++ [task])
     ∧ (taskQue_ (pool s) = [] →
        threadFunc_step st now w s =
          Some (mkWorker (w_threadid w) Exited (w_lastTime w),
                set_pool (erase_thread (w_threadid w) (pool s)) s))).
Proof.
  intros Hrun Hpc. split.
  - intros Hre. unfold reclaims in Hre.
    destruct (w_pc w) eqn:Hw; try done. destruct st; [done|].
    unfold threadFunc_step, after_wait_for. rewrite Hw, Hre.
    unfold must_reclaim in Hre. apply andb_prop in Hre as [Hdur Hgt].
    apply Z.geb_le in Hdur. apply Z.gtb_lt in Hgt.
    repeat split; try done; lia.
  - intros Hre. rewrite (threadFunc_step_at_lock s w st now Hpc Hre).
    unfold wait_loop. split.
    + intros task rest Hq. by rewrite Hq.
    + intros Hq. by rewrite Hq, Hrun.
Qed.

(** ** What a step does to the state *)

Lemma start_create_frame {World Val : Type} (k : nat) (s : State World Val) :
  ∃ m g, start_create k s = set_generateId_ g (set_pool (set_threads_ m (pool s)) s).
Proof.
  revert s. induction k as [|k IH]; intros s.
  - exists (threads_ (pool s)), (generateId_ s). by destruct s as [[] ?].
  - simpl. destruct (IH (set_pool
      (set_threads_ (emplace (generateId_ s) (mkThread (generateId_ s)) (threads_ (pool s)))
         (pool s)) (set_generateId_ (incr (generateId_ s)) s))) as (m & g & ->).
    by exists m, g.
Qed.

Lemma start_launch_frame {World Val : Type} (k : nat) (i : Z) (s s' : State World Val) :
  start_launch k i s = Some s' →
  ∃ idle ws, s' = set_workers ws (set_pool (set_idleThreadSize_ idle (pool s)) s).
Proof.
  revert i s. induction k as [|k IH]; intros i s; simpl.
  - intros [= <-]. exists (idleThreadSize_ (pool s)), (workers s). by destruct s as [[] ?].
  - destruct (threads_ (pool s) !! i) as [t|]; simpl; [|done].
    intros H. apply IH in H as (idle & ws & ->). by exists idle, ws.
Qed.

Lemma start_frame {World Val : Type} (n : Z) (s s' : State World Val) :
  start n s = Some s' →
  ∃ m g idle ws,
    s' = set_workers ws (set_generateId_ g (set_pool
           (set_idleThreadSize_ idle (set_threads_ m
              (set_curThreadSize_ n (set_initThreadSize_ n
                 (set_isPoolRunning_ true (pool s)))))) s)).
Proof.
  unfold start. intros H.
  apply start_launch_frame in H as (idle & ws & ->).
  destruct (start_create_frame
    (Z.to_nat (initThreadSize_ (set_curThreadSize_ n
       (set_initThreadSize_ n (set_isPoolRunning_ true (pool s))))))
    (set_pool (set_curThreadSize_ n
       (set_initThreadSize_ n (set_isPoolRunning_ true (pool s)))) s))
    as (m & g & ->).
  by exists m, g, idle, ws.
Qed.

Lemma spawn_thread_total {World Val : Type} (s : State World Val) :
  is_Some (spawn_thread s).
Proof.
  unfold spawn_thread, emplace. simpl.
  destruct (threads_ (pool s) !! generateId_ s) as [t|] eqn:Hl.
  - rewrite Hl. simpl. eauto.
  - rewrite lookup_insert_eq. simpl. eauto.
Qed.

Lemma submitTask_accept_cases {World Val : Type} (s s' : State World Val) sp r :
  submitTask_accept sp s = Some (r, s') →
  let p1 := set_taskSize_ (incr (taskSize_ (pool s)))
              (set_taskQue_ (taskQue_ (pool s) ++ [sp]) (pool s)) in
  let s1 := set_hist_enq (hist_enq s ++ [sp]) (set_pool p1 s) in
  ∃ s2, Result_ctor sp true s2 = Some (r, s')
        ∧ (s2 = s1
           ∨ must_grow p1 = true
             ∧ ∃ m ws g,
                 s2 = set_generateId_ g (set_workers ws
                        (set_pool (set_idleThreadSize_ (incr (idleThreadSize_ p1))
                           (set_curThreadSize_ (incr (curThreadSize_ p1))
                              (set_threads_ m p1))) s1))).
Proof.
  intros H p1 s1. unfold submitTask_accept in H. fold p1 in H. fold s1 in H.
  destruct (must_grow p1) eqn:Hg.
  - destruct (spawn_thread s1) as [s2|] eqn:Hsp; simpl in H; [|done].
    exists s2. split; [done|]. right. split; [done|].
    by apply spawn_thread_frame in Hsp.
  - simpl in H. exists s1. by split; [|left].
Qed.

Lemma submitTask_accept_total {World Val : Type} (s : State World Val) sp t :
  tasks s !! sp = Some t → is_Some (submitTask_accept sp s).
Proof.
  intros Ht. unfold submitTask_accept.
  destruct (must_grow _).
  - destruct (spawn_thread_total (set_hist_enq (hist_enq s ++ [sp])
      (set_pool (set_taskSize_ (incr (taskSize_ (pool s)))
         (set_taskQue_ (taskQue_ (pool s) ++ [sp]) (pool s))) s))) as [s2 Hs2].
    rewrite Hs2. simpl.
    pose proof (spawn_thread_frame _ _ Hs2) as (m & ws & g & ->).
    erewrite Result_ctor_spec by (simpl; exact Ht). eauto.
  - simpl. erewrite Result_ctor_spec by (simpl; exact Ht). eauto.
Qed.

Lemma Task_exec_inv {World Val : Type} (s s' : State World Val) task :
  Task_exec task s = Some s' →
  ∃ t, tasks s !! task = Some t
       ∧ (result_ t = None ∧ s' = s
          ∨ ∃ res r, result_ t = Some res ∧ results s !! res = Some r
              ∧ s' = set_results
                       (<[res := Result_setVal (fst (run t (world s))) r]> (results s))
                       (set_world (snd (run t (world s))) s)).
Proof.
  unfold Task_exec. destruct (tasks s !! task) as [t|]; simpl; [|done].
  intros H. exists t. split; [done|].
  destruct (result_ t) as [res|].
  - right. destruct (run t (world s)) as [a w]. simpl.
    destruct (results s !! res) as [r|] eqn:Hr; simpl in H; [|done].
    injection H as <-. by exists res, r.
  - left. by injection H as <-.
Qed.

(** The pool after a step of a worker: it is as before, up to the registry,
    the queue and the idle and task counters, unless the worker reclaims
    itself at lines 181-194. *)
Lemma threadFunc_step_pool {World Val : Type} st now w (s : State World Val) w' s' :
  threadFunc_step st now w s = Some (w', s') →
  (∃ m idle n q,
     pool s' = set_taskQue_ q (set_taskSize_ n (set_idleThreadSize_ idle
                 (set_threads_ m (pool s)))))
  ∨ (w_pc w = InWaitFor ∧ st = timeout
     ∧ must_reclaim now (w_lastTime w) (pool s) = true
     ∧ w_pc w' = Exited
     ∧ pool s' = reclaim (w_threadid w) (pool s)).
Proof.
  assert (Hsame : ∀ p : ThreadPool, ∃ m idle n q,
    p = set_taskQue_ q (set_taskSize_ n (set_idleThreadSize_ idle (set_threads_ m p)))).
  { intros p. exists (threads_ p), (idleThreadSize_ p), (taskSize_ p), (taskQue_ p).
    by destruct p. }
  assert (Hloop : ∀ tid pc s0, wait_loop tid s = (pc, s0) → ∃ m idle n q,
    pool s0 = set_taskQue_ q (set_taskSize_ n (set_idleThreadSize_ idle
                (set_threads_ m (pool s))))).
  { intros tid pc s0. unfold wait_loop.
    destruct (taskQue_ (pool s)) as [|task rest].
    - destruct (negb _); [|destruct (PoolMode_eqb _ _)]; intros [= <- <-]; simpl;
        try apply Hsame.
      exists (delete tid (threads_ (pool s))), (idleThreadSize_ (pool s)),
        (taskSize_ (pool s)), (taskQue_ (pool s)).
      by destruct (pool s).
    - intros [= <- <-].
      by exists (threads_ (pool s)), (decr (idleThreadSize_ (pool s))),
        (decr (taskSize_ (pool s))), rest. }
  unfold threadFunc_step. destruct (w_pc w) eqn:Hpc.
  - intros [= <- <-]. left. apply Hsame.
  - destruct (wait_loop _ _) as [pc s0] eqn:Hw. intros [= <- <-]. left. eauto.
  - unfold after_wait_for. destruct st.
    + destruct (wait_loop _ _) as [pc s0] eqn:Hw. intros [= <- <-]. left. eauto.
    + destruct (must_reclaim _ _ _) eqn:Hr.
      * intros [= <- <-]. right. by simpl.
      * destruct (wait_loop _ _) as [pc s0] eqn:Hw. intros [= <- <-]. left. eauto.
  - destruct (wait_loop _ _) as [pc s0] eqn:Hw. intros [= <- <-]. left. eauto.
  - destruct (Task_exec task s) as [s0|] eqn:He; simpl; [|done].
    intros [= <- <-]. left.
    apply Task_exec_inv in He as (t & _ & [[_ ->] | (res & r & _ & _ & ->)]);
      simpl; apply Hsame.
  - intros [= <- <-]. left. simpl.
    exists (threads_ (pool s)), (incr (idleThreadSize_ (pool s))),
      (taskSize_ (pool s)), (taskQue_ (pool s)).
    by destruct (pool s).
  - done.
Qed.

(** ** Reachable states *)

Lemma exec_actions_invariant {World Val : Type} (P : State World Val → Prop) :
  (∀ a s s', P s → step a s = Some s' → P s') →
  ∀ acts s s', P s → exec_actions acts s = Some s' → P s'.
Proof.
  intros Hstep acts. induction acts as [|a rest IH]; intros s s' HP; simpl.
  - by intros [= <-].
  - destruct (step a s) as [s1|] eqn:Ha; simpl; [|done].
    intros Hrest. eapply IH; [|exact Hrest]. by eapply Hstep.
Qed.

Lemma reachable_invariant {World Val : Type} (P : State World Val → Prop) :
  (∀ w, P (initial w)) →
  (∀ a s s', P s → step a s = Some s' → P s') →
  ∀ s, reachable s → P s.
Proof.
  intros Hinit Hstep s (w & acts & Hrun).
  eapply exec_actions_invariant; [exact Hstep|apply Hinit|exact Hrun].
Qed.

Lemma reachable_step {World Val : Type} (a : Action) (s s' : State World Val) :
  reachable s → step a s = Some s' → reachable s'.
Proof.
  intros (w & acts & Hrun) Ha. exists w, (acts ++ [a]).
  revert Hrun. generalize (initial w : State World Val).
  induction acts as [|b rest IH]; intros s0; simpl.
  - intros [= ->]. by rewrite Ha.
  - destruct (step b s0) as [s1|]; simpl; [|done]. apply IH.
Qed.

(** ** The worker count: what each step does to it *)

Lemma step_counts {World Val : Type} (a : Action) (s s' : State World Val) :
  step a s = Some s' →
  let p := pool s in
  let p' := pool s' in
  (initThreadSize_ p' = initThreadSize_ p
   ∧ threadSizeThreshHold_ p' = threadSizeThreshHold_ p
   ∧ curThreadSize_ p' = curThreadSize_ p)
  ∨ (initThreadSize_ p' = initThreadSize_ p
     ∧ threadSizeThreshHold_ p' = threadSizeThreshHold_ p
     ∧ curThreadSize_ p < threadSizeThreshHold_ p
     ∧ curThreadSize_ p' = incr (curThreadSize_ p))
  ∨ (initThreadSize_ p' = initThreadSize_ p
     ∧ threadSizeThreshHold_ p' = threadSizeThreshHold_ p
     ∧ initThreadSize_ p < curThreadSize_ p
     ∧ curThreadSize_ p' = decr (curThreadSize_ p))
  ∨ (∃ n, a = Call_start n
     ∧ initThreadSize_ p' = to_int n ∧ curThreadSize_ p' = to_int n
     ∧ threadSizeThreshHold_ p' = threadSizeThreshHold_ p)
  ∨ (∃ n, a = Call_setThreadSizeThreshHold n
     ∧ isPoolRunning_ p = false
     ∧ initThreadSize_ p' = initThreadSize_ p
     ∧ curThreadSize_ p' = curThreadSize_ p
     ∧ threadSizeThreshHold_ p' = to_int n).
Proof.
  intros Hstep p p'. subst p p'. destruct a; simpl in Hstep.
  - injection Hstep as <-. left. simpl. unfold setMode.
    by destruct (checkRunningState _).
  - injection Hstep as <-. left. simpl. unfold setTaskQueMaxThreshHold.
    by destruct (checkRunningState _).
  - injection Hstep as <-. simpl. unfold setThreadSizeThreshHold, checkRunningState.
    destruct (isPoolRunning_ (pool s)) eqn:Hrun; [by left|].
    destruct (PoolMode_eqb _ _); [|by left].
    do 4 right. by exists threshhold.
  - apply start_frame in Hstep as (m & g & idle & ws & ->).
    do 3 right. left. by exists initThreadSize.
  - injection Hstep as <-. by left.
  - unfold submitTask_step in Hstep.
    destruct (notFull_pred (pool s)).
    + destruct (submitTask_accept sp s) as [[r s0]|] eqn:Hacc; simpl in Hstep; [|done].
      injection Hstep as <-.
      apply submitTask_accept_cases in Hacc as (s2 & Hctor & Hs2).
      apply Result_ctor_inv in Hctor as (t & _ & _ & ->). simpl.
      destruct Hs2 as [-> | (Hgrow & m & ws & g & ->)]; [by left|].
      right. left. simpl. repeat split; try done.
      unfold must_grow in Hgrow. simpl in Hgrow.
      apply andb_prop in Hgrow as [_ Hlt]. by apply Z.ltb_lt in Hlt.
    + destruct pc, st; simpl in Hstep; try (injection Hstep as <-; by left).
      unfold submitTask_reject in Hstep.
      destruct (Result_ctor sp false s) as [[r s0]|] eqn:Hctor; simpl in Hstep; [|done].
      injection Hstep as <-.
      apply Result_ctor_inv in Hctor as (t & _ & _ & ->). by left.
  - destruct (workers s !! i) as [w|]; simpl in Hstep; [|done].
    destruct (threadFunc_step st now w s) as [[w' s0]|] eqn:Hw; simpl in Hstep; [|done].
    injection Hstep as <-. simpl.
    apply threadFunc_step_pool in Hw
      as [(m & idle & n & q & ->) | (_ & _ & Hre & _ & ->)]; [by left|].
    do 2 right. left. simpl. repeat split; try done.
    unfold must_reclaim in Hre. apply andb_prop in Hre as [_ Hgt].
    apply Z.gtb_lt in Hgt. lia.
  - destruct (results s !! res) as [r|]; simpl in Hstep; [|done].
    destruct (Result_get r); injection Hstep as <-; by left.
  - injection Hstep as <-. by left.
Qed.

Lemma step_ints_ok {World Val : Type} (a : Action) (s s' : State World Val) :
  ints_ok (pool s) → step a s = Some s' → ints_ok (pool s').
Proof.
  intros (Hi & Hc & Ht) Hstep. unfold ints_ok.
  destruct (step_counts a s s' Hstep)
    as [(-> & -> & ->) | [(-> & -> & _ & ->) | [(-> & -> & _ & ->)
       | [(n & _ & -> & -> & ->) | (n & _ & _ & -> & -> & ->)]]]];
    unfold incr, decr; auto using to_int_range.
Qed.

Lemma reachable_ints_ok {World Val : Type} (s : State World Val) :
  reachable s → ints_ok (pool s).
Proof.
  revert s. apply reachable_invariant.
  - intros w. unfold ints_ok, is_int, INT32_MIN, INT32_MAX. simpl.
    unfold THREAD_MAX_THRESHHOLD. lia.
  - intros a s s' H Hs. by eapply step_ints_ok.
Qed.

Lemma reachable_baseline {World Val : Type} (s : State World Val) :
  reachable s → initThreadSize_ (pool s) <= curThreadSize_ (pool s).
Proof.
  intros Hr. cut (ints_ok (pool s) ∧ initThreadSize_ (pool s) <= curThreadSize_ (pool s));
    [tauto|].
  revert s Hr. apply reachable_invariant.
  - intros w. split; [apply (reachable_ints_ok (initial w)); by exists w, [] | by simpl].
  - intros a s s' [Hok Hle] Hstep. split; [by eapply step_ints_ok|].
    destruct Hok as (Hi & Hc & Ht). unfold is_int, INT32_MIN, INT32_MAX in *.
    destruct (step_counts a s s' Hstep)
      as [(-> & _ & ->) | [(-> & _ & Hlt & ->) | [(-> & _ & Hlt & ->)
         | [(n & _ & -> & -> & _) | (n & _ & _ & -> & -> & _)]]]]; try lia.
    + unfold incr. rewrite to_int_id; unfold is_int, INT32_MIN, INT32_MAX; lia.
    + unfold decr. rewrite to_int_id; unfold is_int, INT32_MIN, INT32_MAX; lia.
Qed.

(** C6: in every reachable state, and so while the pool runs in cached mode,
    the current worker count is at least the baseline recorded by [start];
    and a step of a worker lowers the count only as the reclaim of lines
    181-194: the worker woke from the timed wait by timeout, it has been
    idle for at least 60 seconds and the count was strictly above the
    baseline, so that the count, one less, is still at least the baseline. *)
Theorem worker_count_never_below_baseline {World Val : Type} (s : State World Val) :
  reachable s →
  initThreadSize_ (pool s) <= curThreadSize_ (pool s)
  ∧ ∀ i st now s',
      step (Step_threadFunc i st now) s = Some s' →
      curThreadSize_ (pool s') ≠ curThreadSize_ (pool s) →
      ∃ w, workers s !! i = Some w
           ∧ w_pc w = InWaitFor ∧ st = timeout
           ∧ THREAD_MAX_IDLE_TIME <= duration_cast_seconds (now - w_lastTime w)
           ∧ initThreadSize_ (pool s) < curThreadSize_ (pool s)
           ∧ curThreadSize_ (pool s') = curThreadSize_ (pool s) - 1
           ∧ initThreadSize_ (pool s') <= curThreadSize_ (pool s').
Proof.
  intros Hr. split; [by apply reachable_baseline|].
  intros i st now s' Hstep Hne.
  pose proof (reachable_baseline s' (reachable_step _ _ _ Hr Hstep)) as Hle'.
  pose proof (reachable_ints_ok s Hr) as (Hi & Hc & _).
  simpl in Hstep.
  destruct (workers s !! i) as [w|]; simpl in Hstep; [|done].
  destruct (threadFunc_step st now w s) as [[w' s0]|] eqn:Hw; simpl in Hstep; [|done].
  injection Hstep as <-. simpl in *.
  apply threadFunc_step_pool in Hw
    as [(m & idle & n & q & Heq) | (Hpc & -> & Hre & _ & Heq)].
  - rewrite Heq in Hne. by simpl in Hne.
  - exists w. unfold must_reclaim in Hre. apply andb_prop in Hre as [Hdur Hgt].
    apply Z.geb_le in Hdur. apply Z.gtb_lt in Hgt.
    rewrite Heq in Hle' |- *. simpl in *.
    assert (Hd : decr (curThreadSize_ (pool s)) = curThreadSize_ (pool s) - 1).
    { unfold decr. apply to_int_id. unfold is_int, INT32_MIN, INT32_MAX in *. lia. }
    rewrite Hd in *. repeat split; try done; lia.
Qed.

(** C5, as the code has it: the bound "current count at most the threshold"
    is kept by every step that is not a [start] above the threshold or a
    threshold setter that lowers the threshold under the count; the growth
    in [submitTask] adds a worker only while the count is strictly below the
    threshold.  [start] itself stores its argument as the count without
    looking at the threshold. *)
Theorem worker_count_within_threshold_step {World Val : Type}
    (a : Action) (s s' : State World Val) :
  reachable s →
  curThreadSize_ (pool s) <= threadSizeThreshHold_ (pool s) →
  within_threshold a s →
  step a s = Some s' →
  curThreadSize_ (pool s') <= threadSizeThreshHold_ (pool s')
  ∧ ∀ n s1, start n s = Some s1 →
      curThreadSize_ (pool s1) = n
      ∧ threadSizeThreshHold_ (pool s1) = threadSizeThreshHold_ (pool s).
Proof.
  intros Hr Hle Hw Hstep. split.
  - pose proof (reachable_ints_ok s Hr) as (Hi & Hc & Ht).
    pose proof (reachable_baseline s Hr) as Hb.
    unfold is_int, INT32_MIN, INT32_MAX in *.
    destruct (step_counts a s s' Hstep)
      as [(_ & -> & ->) | [(_ & -> & Hlt & ->) | [(_ & -> & Hlt & ->)
         | [(n & -> & _ & -> & ->) | (n & -> & Hrun & _ & -> & ->)]]]]; try lia.
    + unfold incr. rewrite to_int_id; unfold is_int, INT32_MIN, INT32_MAX; lia.
    + unfold decr. rewrite to_int_id; unfold is_int, INT32_MIN, INT32_MAX; lia.
    + exact Hw.
    + simpl in Hw. destruct Hw as [Hw|Hw]; [congruence|exact Hw].
  - intros n s1 Hs. apply start_frame in Hs as (m & g & idle & ws & ->). by simpl.
Qed.

(** ** The steps of a worker and of a caller, case by case *)

Lemma threadFunc_step_cases {World Val : Type} st now w (s : State World Val) w' s' :
  threadFunc_step st now w s = Some (w', s') →
  ((w_pc w' = AtLoopTop ∨ w_pc w' = InWaitFor ∨ w_pc w' = InWait) ∧ s' = s)
  ∨ (taskQue_ (pool s) = [] ∧ isPoolRunning_ (pool s) = false
     ∧ w_pc w' = Exited
     ∧ s' = set_pool (erase_thread (w_threadid w) (pool s)) s)
  ∨ (∃ task rest, taskQue_ (pool s) = task :: rest
     ∧ w_pc w' = AtExec task ∧ s' = take_task task rest s)
  ∨ (w_pc w = InWaitFor ∧ st = timeout
     ∧ w_pc w' = Exited
     ∧ s' = set_pool (reclaim (w_threadid w) (pool s)) s)
  ∨ (∃ task, w_pc w = AtExec task ∧ w_pc w' = AfterExec ∧ Task_exec task s = Some s')
  ∨ (w_pc w = AfterExec ∧ w_pc w' = AtLoopTop
     ∧ s' = set_pool (set_idleThreadSize_ (incr (idleThreadSize_ (pool s))) (pool s)) s).
Proof.
  assert (Hloop : ∀ pc s0, wait_loop (w_threadid w) s = (pc, s0) →
    ((pc = AtLoopTop ∨ pc = InWaitFor ∨ pc = InWait) ∧ s0 = s)
    ∨ (taskQue_ (pool s) = [] ∧ isPoolRunning_ (pool s) = false
       ∧ pc = Exited
       ∧ s0 = set_pool (erase_thread (w_threadid w) (pool s)) s)
    ∨ (∃ task rest, taskQue_ (pool s) = task :: rest
       ∧ pc = AtExec task ∧ s0 = take_task task rest s)).
  { intros pc s0. unfold wait_loop.
    destruct (taskQue_ (pool s)) as [|task rest] eqn:Hq.
    - destruct (isPoolRunning_ (pool s)) eqn:Hrun; simpl.
      + destruct (PoolMode_eqb _ _); intros [= <- <-]; left; auto.
      + intros [= <- <-]. right. by left.
    - intros [= <- <-]. right. right. by exists task, rest. }
  assert (Hwl : ∀ pc s0 t0, wait_loop (w_threadid w) s = (pc, s0) →
    Some (mkWorker (w_threadid w) pc t0, s0) = Some (w', s') →
    ((w_pc w' = AtLoopTop ∨ w_pc w' = InWaitFor ∨ w_pc w' = InWait) ∧ s' = s)
    ∨ (taskQue_ (pool s) = [] ∧ isPoolRunning_ (pool s) = false
       ∧ w_pc w' = Exited
       ∧ s' = set_pool (erase_thread (w_threadid w) (pool s)) s)
    ∨ (∃ task rest, taskQue_ (pool s) = task :: rest
       ∧ w_pc w' = AtExec task ∧ s' = take_task task rest s)).
  { intros pc s0 t0 Hw [= <- <-]. simpl. by apply Hloop. }
  unfold threadFunc_step. destruct (w_pc w) eqn:Hpc.
  - intros [= <- <-]. left. auto.
  - destruct (wait_loop _ _) as [pc s0]. intros H.
    destruct (Hwl _ _ _ eq_refl H) as [? | [? | ?]]; auto.
  - unfold after_wait_for. destruct st.
    + destruct (wait_loop _ _) as [pc s0]. intros H.
      destruct (Hwl _ _ _ eq_refl H) as [? | [? | ?]]; auto.
    + destruct (must_reclaim _ _ _).
      * intros [= <- <-]. do 3 right. by left.
      * destruct (wait_loop _ _) as [pc s0]. intros H.
        destruct (Hwl _ _ _ eq_refl H) as [? | [? | ?]]; auto.
  - destruct (wait_loop _ _) as [pc s0]. intros H.
    destruct (Hwl _ _ _ eq_refl H) as [? | [? | ?]]; auto.
  - destruct (Task_exec task s) as [s0|] eqn:He; simpl; [|done].
    intros [= <- <-]. do 4 right. left. by exists task.
  - intros [= <- <-]. do 5 right. done.
  - done.
Qed.

Lemma submitTask_step_cases {World Val : Type} pc st sp (s : State World Val) o s' :
  submitTask_step pc st sp s = Some (o, s') →
  (o = None ∧ s' = s)
  ∨ (notFull_pred (pool s) = false
     ∧ ∃ r, o = Some r ∧ Result_ctor sp false s = Some (r, s'))
  ∨ (notFull_pred (pool s) = true
     ∧ ∃ r s2, o = Some r ∧ Result_ctor sp true s2 = Some (r, s')
        ∧ taskQue_ (pool s2) = taskQue_ (pool s) ++ [sp]
        ∧ hist_enq s2 = hist_enq s ++ [sp]
        ∧ hist_deq s2 = hist_deq s
        ∧ tasks s2 = tasks s ∧ results s2 = results s ∧ world s2 = world s).
Proof.
  unfold submitTask_step. destruct (notFull_pred (pool s)).
  - destruct (submitTask_accept sp s) as [[r s0]|] eqn:Hacc; simpl; [|done].
    intros [= <- <-]. right. right. split; [done|].
    apply submitTask_accept_inv in Hacc as (s2 & Hctor & Hq & _ & He & Hd & Ht & Hr & Hw).
    by exists r, s2.
  - destruct pc, st; simpl; try (intros [= <- <-]; by left).
    unfold submitTask_reject.
    destruct (Result_ctor sp false s) as [[r s0]|] eqn:Hctor; simpl; [|done].
    intros [= <- <-]. right. left. split; [done|]. by exists r.
Qed.

(** ** FIFO order *)

Lemma fifo_history {World Val : Type} (s : State World Val) :
  reachable s → hist_deq s ++ taskQue_ (pool s) = hist_enq s.
Proof.
  revert s. apply reachable_invariant; [done|].
  intros a s s' Hinv Hstep. destruct a; simpl in Hstep.
  - injection Hstep as <-. simpl. unfold setMode. by destruct (checkRunningState _).
  - injection Hstep as <-. simpl. unfold setTaskQueMaxThreshHold.
    by destruct (checkRunningState _).
  - injection Hstep as <-. simpl. unfold setThreadSizeThreshHold.
    destruct (checkRunningState _); [done|]. by destruct (PoolMode_eqb _ _).
  - apply start_frame in Hstep as (m & g & idle & ws & ->). by simpl.
  - by injection Hstep as <-.
  - destruct (submitTask_step pc st sp s) as [[o s0]|] eqn:Hsub; simpl in Hstep; [|done].
    injection Hstep as <-.
    apply submitTask_step_cases in Hsub
      as [[_ ->] | [(_ & r & _ & Hctor)
         | (_ & r & s2 & _ & Hctor & Hq & He & Hd & _)]]; [done| |].
    + apply Result_ctor_inv in Hctor as (t & _ & _ & ->). by simpl.
    + apply Result_ctor_inv in Hctor as (t & _ & _ & ->). simpl.
      by rewrite Hq, He, Hd, app_assoc, Hinv.
  - destruct (workers s !! i) as [w|]; simpl in Hstep; [|done].
    destruct (threadFunc_step st now w s) as [[w' s0]|] eqn:Hw; simpl in Hstep; [|done].
    injection Hstep as <-. simpl.
    apply threadFunc_step_cases in Hw
      as [[_ ->] | [(_ & _ & _ & ->) | [(task & rest & Hq & _ & ->) | [(_ & _ & _ & ->)
         | [(task & _ & _ & He) | (_ & _ & ->)]]]]]; try done.
    + simpl. rewrite <- Hinv, Hq. by rewrite <- app_assoc.
    + apply Task_exec_inv in He as (t & _ & [[_ ->] | (res & r & _ & _ & ->)]); done.
  - destruct (results s !! res) as [r|]; simpl in Hstep; [|done].
    destruct (Result_get r); by injection Hstep as <-.
  - by injection Hstep as <-.
Qed.

(** C8: the tasks taken out of the queue so far, followed by the tasks still
    in it, are the accepted tasks in the order of their acceptance.  So of
    two accepted tasks, when the later one has been taken out, the earlier
    one has been taken out before it.  [submitTask] appends at the tail: a
    call that finds room puts its task behind all queued tasks; and a worker
    takes the head: one that comes to the test of its loop while the queue
    is not empty (and does not leave by the reclaim) takes the first task of
    the queue and no other. *)
Theorem tasks_dequeued_in_submission_order {World Val : Type} (s : State World Val) :
  reachable s →
  hist_deq s ++ taskQue_ (pool s) = hist_enq s
  ∧ (∀ i j t1 t2, (i < j)%nat →
       hist_enq s !! i = Some t1 → hist_enq s !! j = Some t2 →
       (j < length (hist_deq s))%nat →
       hist_deq s !! i = Some t1 ∧ hist_deq s !! j = Some t2)
  ∧ (∀ pc st sp r s', submitTask_step pc st sp s = Some (Some r, s') →
       notFull_pred (pool s) = true →
       taskQue_ (pool s') = taskQue_ (pool s) ++ [sp])
  ∧ (∀ st now w w' s' task, threadFunc_step st now w s = Some (w', s') →
       w_pc w' = AtExec task →
       taskQue_ (pool s) = task :: taskQue_ (pool s'))
  ∧ (∀ pc st sp t, notFull_pred (pool s) = true → tasks s !! sp = Some t →
       ∃ r s', submitTask_step pc st sp s = Some (Some r, s')
         ∧ taskQue_ (pool s') = taskQue_ (pool s) ++ [sp]
         ∧ hist_enq s' = hist_enq s ++ [sp]
         ∧ hist_deq s' = hist_deq s)
  ∧ (∀ st now w task rest,
       w_pc w = AtLoopTop ∨ w_pc w = InWait ∨ w_pc w = InWaitFor →
       reclaims st now w (pool s) = false →
       taskQue_ (pool s) = task :: rest →
       ∃ w' s', threadFunc_step st now w s = Some (w', s')
         ∧ w_pc w' = AtExec task
         ∧ taskQue_ (pool s') = rest
         ∧ hist_deq s' = hist_deq s ++ [task]
         ∧ hist_enq s' = hist_enq s).
Proof.
  intros Hr. pose proof (fifo_history s Hr) as Hh.
  split; [exact Hh|]. split; [|split; [|split; [|split]]].
  - intros i j t1 t2 Hij H1 H2 Hj. rewrite <- Hh in H1, H2.
    rewrite lookup_app_l in H1 by lia. rewrite lookup_app_l in H2 by lia. done.
  - intros pc st sp r s' Hstep Hpred.
    apply submitTask_step_cases in Hstep
      as [[? _] | [(Hf & _) | (_ & r0 & s2 & _ & Hctor & Hq & _)]]; [done|congruence|].
    apply Result_ctor_inv in Hctor as (t & _ & _ & ->). by simpl.
  - intros st now w w' s' task Hstep Hpc.
    apply threadFunc_step_cases in Hstep
      as [[Hpc0 _] | [(_ & _ & Hpc0 & _) | [(task0 & rest & Hq & Hpc0 & ->)
         | [(_ & _ & Hpc0 & _) | [(task0 & _ & Hpc0 & _) | (_ & Hpc0 & _)]]]]];
      rewrite Hpc in Hpc0; try done.
    + by destruct Hpc0 as [? | [? | ?]].
    + injection Hpc0 as <-. by rewrite Hq.
  - intros pc st sp t Hpred Ht. unfold submitTask_step. rewrite Hpred.
    destruct (submitTask_accept_total s sp t Ht) as [[r s'] Hacc].
    rewrite Hacc. simpl. exists r, s'. split; [done|].
    apply submitTask_accept_inv in Hacc as (s2 & Hctor & Hq & _ & He & Hd & _).
    apply Result_ctor_inv in Hctor as (t0 & _ & _ & ->). by simpl.
  - intros st now w task rest Hpc Hre Hq.
    rewrite (threadFunc_step_at_lock s w st now Hpc Hre).
    unfold wait_loop. rewrite Hq. simpl. eexists _, _. split; [reflexivity|]. done.
Qed.

(** ** The hand-shake between a task and its future *)

Lemma heap_ok_same {World Val : Type} (s s' : State World Val) :
  tasks s' = tasks s → results s' = results s → heap_ok s → heap_ok s'.
Proof. unfold heap_ok. intros -> ->. done. Qed.

Lemma pending_same {World Val : Type} (s s' : State World Val) sp r :
  tasks s' = tasks s → results s' = results s → pending s sp r → pending s' sp r.
Proof. unfold pending, attached. intros -> ->. done. Qed.

Lemma heap_ok_update {World Val : Type} (s s' : State World Val) res r r' :
  results s !! res = Some r → task_ r' = task_ r →
  tasks s' = tasks s → results s' = <[res := r']> (results s) →
  heap_ok s → heap_ok s'.
Proof.
  intros Hres Htask Ht Hr Hok sp t r0 Hsp Hr0. rewrite Ht in Hsp. rewrite Hr.
  destruct (Hok sp t r0 Hsp Hr0) as (R & HR & HRt).
  destruct (decide (res = r0)) as [-> | Hne].
  - exists r'. split.
    + apply list_lookup_insert_eq. by eapply lookup_lt_Some.
    + rewrite Hres in HR. injection HR as <-. by rewrite Htask.
  - exists R. split; [|done]. by rewrite list_lookup_insert_ne.
Qed.

Lemma pending_update {World Val : Type} (s s' : State World Val) sp r res r' :
  res ≠ r → tasks s' = tasks s → results s' = <[res := r']> (results s) →
  pending s sp r → pending s' sp r.
Proof.
  intros Hne Ht Hr [Ha Hp]. split.
  - unfold attached. by rewrite Ht.
  - rewrite Hr. by rewrite list_lookup_insert_ne.
Qed.

Lemma Result_ctor_heap_ok {World Val : Type} (s s' : State World Val) sp valid r :
  heap_ok s → Result_ctor sp valid s = Some (r, s') → heap_ok s'.
Proof.
  intros Hok Hctor. apply Result_ctor_inv in Hctor as (t & Ht & -> & ->).
  intros sp' t' r' Hsp' Hr'. simpl in *.
  destruct (decide (sp = sp')) as [<- | Hne].
  - rewrite list_lookup_insert_eq in Hsp' by (by eapply lookup_lt_Some).
    injection Hsp' as <-. simpl in Hr'. injection Hr' as <-.
    exists (mkResult valid sp Any_none O). split; [|reflexivity].
    rewrite lookup_app_r by lia. by rewrite Nat.sub_diag.
  - rewrite list_lookup_insert_ne in Hsp' by done.
    destruct (Hok sp' t' r' Hsp' Hr') as (R & HR & HRt).
    exists R. split; [|done]. by apply lookup_app_l_Some.
Qed.

Lemma Result_ctor_pending_other {World Val : Type} (s s' : State World Val)
    sp0 valid r0 sp r :
  sp0 ≠ sp → pending s sp r → Result_ctor sp0 valid s = Some (r0, s') →
  pending s' sp r.
Proof.
  intros Hne [(t & Ht & Hr) Hp] Hctor.
  apply Result_ctor_inv in Hctor as (t0 & _ & -> & ->). split.
  - exists t. simpl. by rewrite list_lookup_insert_ne.
  - simpl. by apply lookup_app_l_Some.
Qed.

Lemma Result_ctor_pending_new {World Val : Type} (s s' : State World Val) sp r :
  Result_ctor sp true s = Some (r, s') → pending s' sp r.
Proof.
  intros Hctor. apply Result_ctor_inv in Hctor as (t & Ht & -> & ->). split.
  - exists (Task_setResult (length (results s)) t). simpl. split; [|done].
    apply list_lookup_insert_eq. by eapply lookup_lt_Some.
  - simpl. rewrite lookup_app_r by lia. by rewrite Nat.sub_diag.
Qed.

Ltac heap_updated s res r Hres Hok :=
  eapply (heap_ok_update s _ res r);
    [exact Hres | | reflexivity | reflexivity | exact Hok]; reflexivity.

Lemma step_heap_ok {World Val : Type} (a : Action) (s s' : State World Val) :
  heap_ok s → step a s = Some s' → heap_ok s'.
Proof.
  intros Hok Hstep. destruct a; simpl in Hstep.
  - injection Hstep as <-. by apply (heap_ok_same s).
  - injection Hstep as <-. by apply (heap_ok_same s).
  - injection Hstep as <-. by apply (heap_ok_same s).
  - apply start_frame in Hstep as (m & g & idle & ws & ->). by apply (heap_ok_same s).
  - injection Hstep as <-. intros sp t r0 Hsp Hr0. simpl in *.
    apply lookup_app_Some in Hsp as [Hsp | [_ Hsp]].
    + by eapply Hok.
    + destruct (sp - length (tasks s))%nat; simpl in Hsp; [|done].
      injection Hsp as <-. done.
  - destruct (submitTask_step pc st sp s) as [[o s0]|] eqn:Hsub; simpl in Hstep; [|done].
    injection Hstep as <-.
    apply submitTask_step_cases in Hsub
      as [[_ ->] | [(_ & r & _ & Hctor)
         | (_ & r & s2 & _ & Hctor & _ & _ & _ & Ht & Hr & _)]]; [done| |].
    + by eapply Result_ctor_heap_ok.
    + eapply Result_ctor_heap_ok; [|exact Hctor]. by apply (heap_ok_same s).
  - destruct (workers s !! i) as [w|]; simpl in Hstep; [|done].
    destruct (threadFunc_step st now w s) as [[w' s0]|] eqn:Hw; simpl in Hstep; [|done].
    injection Hstep as <-. apply (heap_ok_same s0); [done..|].
    apply threadFunc_step_cases in Hw
      as [[_ ->] | [(_ & _ & _ & ->) | [(task & rest & _ & _ & ->) | [(_ & _ & _ & ->)
         | [(task & _ & _ & He) | (_ & _ & ->)]]]]];
      try (by apply (heap_ok_same s)).
    apply Task_exec_inv in He as (t & _ & [[_ ->] | (res & r & _ & Hres & ->)]); [done|].
    heap_updated s res r Hres Hok.
  - destruct (results s !! res) as [r|] eqn:Hres; simpl in Hstep; [|done].
    unfold Result_get in Hstep.
    destruct (negb (isValid_ r)); [|destruct (sem_ r)]; injection Hstep as <-; try done.
    + heap_updated s res r Hres Hok.
    + heap_updated s res r Hres Hok.
  - injection Hstep as <-. by apply (heap_ok_same s).
Qed.

Lemma reachable_heap_ok {World Val : Type} (s : State World Val) :
  reachable s → heap_ok s.
Proof.
  revert s. apply reachable_invariant.
  - intros w sp t r Hsp. done.
  - intros a s s' H Hs. by eapply step_heap_ok.
Qed.

Lemma step_pending {World Val : Type} (a : Action) (s s' : State World Val) sp r :
  heap_ok s → pending s sp r → step a s = Some s' →
  ¬ submits a sp → ¬ executes a s sp →
  pending s' sp r.
Proof.
  intros Hok Hp Hstep Hns Hne. destruct a; simpl in Hstep.
  - injection Hstep as <-. by apply (pending_same s).
  - injection Hstep as <-. by apply (pending_same s).
  - injection Hstep as <-. by apply (pending_same s).
  - apply start_frame in Hstep as (m & g & idle & ws & ->). by apply (pending_same s).
  - injection Hstep as <-. destruct Hp as [(t & Ht & Hr) Hp]. split; [|done].
    exists t. simpl. split; [|done]. by apply lookup_app_l_Some.
  - assert (Hsp : sp0 ≠ sp) by (intros ->; apply Hns; by exists pc, st).
    destruct (submitTask_step pc st sp0 s) as [[o s0]|] eqn:Hsub; simpl in Hstep; [|done].
    injection Hstep as <-.
    apply submitTask_step_cases in Hsub
      as [[_ ->] | [(_ & r0 & _ & Hctor)
         | (_ & r0 & s2 & _ & Hctor & _ & _ & _ & Ht & Hr & _)]]; [done| |].
    + by eapply Result_ctor_pending_other.
    + eapply Result_ctor_pending_other; [exact Hsp| |exact Hctor].
      by apply (pending_same s).
  - destruct (workers s !! i) as [w|] eqn:Hwi; simpl in Hstep; [|done].
    destruct (threadFunc_step st now w s) as [[w' s0]|] eqn:Hw; simpl in Hstep; [|done].
    injection Hstep as <-. apply (pending_same s0); [done..|].
    apply threadFunc_step_cases in Hw
      as [[_ ->] | [(_ & _ & _ & ->) | [(task & rest & _ & _ & ->) | [(_ & _ & _ & ->)
         | [(task & Hpc & _ & He) | (_ & _ & ->)]]]]];
      try (by apply (pending_same s)).
    assert (Htask : task ≠ sp) by (intros ->; apply Hne; by exists i, st, now, w).
    apply Task_exec_inv in He as (t & Ht & [[_ ->] | (res & r0 & Hres & Hr0 & ->)]); [done|].
    eapply (pending_update s _ sp r res); [|reflexivity|reflexivity|exact Hp].
    intros ->. destruct (Hok task t r Ht Hres) as (R & HR & HRt).
    destruct Hp as [_ Hp]. rewrite Hp in HR. injection HR as <-. by simpl in HRt.
  - destruct (results s !! res) as [r0|] eqn:Hres; simpl in Hstep; [|done].
    destruct (decide (res = r)) as [-> | Hner].
    + destruct Hp as [Ha Hp]. rewrite Hp in Hres. injection Hres as <-.
      simpl in Hstep. by injection Hstep as <-.
    + destruct (Result_get r0); injection Hstep as <-; [done|].
      eapply (pending_update s _ sp r res);
        [exact Hner|reflexivity|reflexivity|exact Hp].
  - injection Hstep as <-. by apply (pending_same s).
Qed.

Lemma undisturbed_pending {World Val : Type} (s1 s2 : State World Val) sp r :
  undisturbed sp s1 s2 → heap_ok s1 → pending s1 sp r →
  heap_ok s2 ∧ pending s2 sp r.
Proof.
  induction 1 as [s | s s' s'' a _ IH Hstep Hns Hne]; [done|].
  intros Hok Hp. destruct (IH Hok Hp) as [Hok' Hp']. split.
  - by eapply step_heap_ok.
  - by eapply step_pending.
Qed.

(** C2, as the code has it: a task is accepted by [submitTask] in a
    reachable state and the call returns the future [r].  As long as the
    same task object is not handed to [submitTask] again, which would point
    it at a newer future, [get] on [r] blocks for as long as the task has
    not been executed; and the step in which a worker executes the task
    calls its [run] and leaves [r] such that [get] returns exactly the value
    that this call of [run] produced. *)
Theorem future_yields_value_of_run {World Val : Type}
    (s0 s1 s2 : State World Val) (pc : SubmitPc) (st : cv_status)
    (sp : TaskAddr) (r : ResultAddr) :
  reachable s0 →
  notFull_pred (pool s0) = true →
  submitTask_step pc st sp s0 = Some (Some r, s1) →
  undisturbed sp s1 s2 →
  (∃ R, results s2 !! r = Some R ∧ isValid_ R = true ∧ Result_get R = get_blocks)
  ∧ ∀ i st' now w,
      workers s2 !! i = Some w → w_pc w = AtExec sp →
      ∃ t s3 R R',
        tasks s2 !! sp = Some t
        ∧ step (Step_threadFunc i st' now) s2 = Some s3
        ∧ world s3 = snd (run t (world s2))
        ∧ results s3 !! r = Some R
        ∧ Result_get R = get_returns (fst (run t (world s2))) R'.
Proof.
  intros Hr Hpred Hsub Hund.
  pose proof (reachable_heap_ok s0 Hr) as Hok0.
  assert (Hok1 : heap_ok s1 ∧ pending s1 sp r).
  { apply submitTask_step_cases in Hsub
      as [[? _] | [(Hf & _)
         | (_ & r0 & s' & [= <-] & Hctor & _ & _ & _ & Ht & Hres & _)]];
      [done|congruence|].
    split; [|by eapply Result_ctor_pending_new].
    eapply Result_ctor_heap_ok; [|exact Hctor]. by apply (heap_ok_same s0). }
  destruct Hok1 as [Hok1 Hp1].
  destruct (undisturbed_pending s1 s2 sp r Hund Hok1 Hp1)
    as [Hok2 [(t & Ht & Hres) Hp2]].
  split; [by eexists|].
  intros i st' now w Hw Hpc. simpl. rewrite Hw. simpl.
  unfold threadFunc_step. rewrite Hpc.
  rewrite (Task_exec_attached s2 sp t r _ Ht Hres Hp2). simpl.
  eexists t, _, _, _. split; [done|]. split; [reflexivity|]. simpl.
  split; [done|]. split.
  - apply list_lookup_insert_eq. by eapply lookup_lt_Some.
  - reflexivity.
Qed.

(** ** Closed instances *)

Ltac ran acts := exists 0%nat, acts; vm_compute; reflexivity.

Ltac conjuncts := repeat match goal with |- _ ∧ _ => split end.

Lemma setters_frozen_once_running_witness :
  isPoolRunning_ (pool (after one_task_queued)) = true
  ∧ step (Call_setMode MODE_CACHED) (after one_task_queued) = Some (after one_task_queued)
  ∧ step (Call_setTaskQueMaxThreshHold 2) (after one_task_queued)
    = Some (after one_task_queued)
  ∧ step (Call_setThreadSizeThreshHold 4) (after one_task_queued)
    = Some (after one_task_queued).
Proof.
  assert (H : isPoolRunning_ (pool (after one_task_queued)) = true)
    by (vm_compute; reflexivity).
  split; [exact H|].
  exact (proj2 (proj2 (proj2
    (setters_frozen_once_running (after one_task_queued) MODE_CACHED 2 4 H)))).
Defined.

Lemma setThreadSizeThreshHold_ignored_in_fixed_mode_witness :
  isPoolRunning_ ThreadPool_ctor = false
  ∧ poolMode_ ThreadPool_ctor = MODE_FIXED
  ∧ threadSizeThreshHold_ (setThreadSizeThreshHold 8 ThreadPool_ctor)
    = threadSizeThreshHold_ ThreadPool_ctor.
Proof.
  split; [reflexivity|]. split; [reflexivity|].
  exact (proj2 (setThreadSizeThreshHold_ignored_in_fixed_mode
                  ThreadPool_ctor 8 eq_refl eq_refl)).
Defined.

Lemma Task_exec_runs_only_when_attached_witness :
  tasks (after task_made) !! 0%nat = Some (Task_ctor (counting_task 7))
  ∧ Task_exec 0%nat (after task_made) = Some (after task_made).
Proof.
  assert (H : tasks (after task_made) !! 0%nat = Some (Task_ctor (counting_task 7)))
    by reflexivity.
  split; [exact H|].
  exact (Task_exec_runs_only_when_attached (after task_made) 0%nat _ H).
Defined.

(** C4 fails as stated: with no future attached, [exec] returns the state as
    it was, although a call of [run] would have moved the world from 0 to 1. *)
Lemma Task_exec_unattached_skips_run :
  tasks (after task_made) !! 0%nat = Some (Task_ctor (counting_task 7))
  ∧ result_ (Task_ctor (counting_task 7)) = None
  ∧ Task_exec 0%nat (after task_made) = Some (after task_made)
  ∧ world (after task_made) = 0%nat
  ∧ snd (run (Task_ctor (counting_task 7)) (world (after task_made))) = 1%nat.
Proof. conjuncts; vm_compute; reflexivity. Qed.

Lemma submitTask_rejects_after_timeout_witness :
  taskQueMaxThreshHold_ (pool (after queue_full)) = 1
  ∧ length (taskQue_ (pool (after queue_full))) = 1%nat
  ∧ tasks (after queue_full) !! 1%nat = Some (Task_ctor (counting_task 8))
  ∧ ∃ r s' R,
      submitTask_step InNotFullWait timeout 1%nat (after queue_full) = Some (Some r, s')
      ∧ pool s' = pool (after queue_full)
      ∧ taskQue_ (pool s') = taskQue_ (pool (after queue_full))
      ∧ taskSize_ (pool s') = taskSize_ (pool (after queue_full))
      ∧ hist_enq s' = hist_enq (after queue_full)
      ∧ results s' !! r = Some R
      ∧ isValid_ R = false
      ∧ Result_get R = get_returns (Any_cstr "") R.
Proof.
  assert (Hthr : taskQueMaxThreshHold_ (pool (after queue_full)) = 1)
    by (vm_compute; reflexivity).
  assert (Hlen : length (taskQue_ (pool (after queue_full))) = 1%nat)
    by (vm_compute; reflexivity).
  assert (H1 : to_size_t (taskQueMaxThreshHold_ (pool (after queue_full)))
               <= Z.of_nat (length (taskQue_ (pool (after queue_full))))
               ∨ (0 <= taskQueMaxThreshHold_ (pool (after queue_full)) <= INT32_MAX
                  ∧ taskQueMaxThreshHold_ (pool (after queue_full))
                    <= Z.of_nat (length (taskQue_ (pool (after queue_full)))))).
  { right. rewrite Hthr, Hlen. unfold INT32_MAX. lia. }
  assert (H2 : tasks (after queue_full) !! 1%nat = Some (Task_ctor (counting_task 8)))
    by (vm_compute; reflexivity).
  split; [exact Hthr|]. split; [exact Hlen|]. split; [exact H2|].
  exact (proj2 (proj2 (proj2 (proj2
    (submitTask_rejects_after_timeout (after queue_full) 1%nat _ H1 H2))))).
Defined.

(** C3 fails as stated: with the threshold set to -1 the empty queue is at
    or above the threshold, yet the predicate of line 71 holds, so even the
    wake-up by timeout enqueues the task and returns a valid future, whose
    [get] blocks. *)
Lemma negative_threshold_never_rejects :
  taskQueMaxThreshHold_ (pool (after negative_threshold)) = -1
  ∧ taskQue_ (pool (after negative_threshold)) = []
  ∧ taskQueMaxThreshHold_ (pool (after negative_threshold))
    <= Z.of_nat (length (taskQue_ (pool (after negative_threshold))))
  ∧ submitTask_step InNotFullWait timeout 0%nat (after negative_threshold)
    = Some (Some 0%nat, after negative_threshold_submit)
  ∧ taskQue_ (pool (after negative_threshold_submit)) = [0%nat]
  ∧ taskSize_ (pool (after negative_threshold_submit)) = 1
  ∧ results (after negative_threshold_submit) !! 0%nat
    = Some (mkResult true 0%nat Any_none 0%nat)
  ∧ Result_get (mkResult (Val:=Z) true 0%nat Any_none 0%nat) = get_blocks.
Proof.
  conjuncts; try (vm_compute; reflexivity).
  vm_compute. discriminate.
Qed.

Lemma submitTask_keeps_queue_within_threshold_witness :
  submitTask_step AtSubmitEntry no_timeout 0%nat (after started)
    = Some (Some 0%nat, after one_task_queued)
  ∧ results (after one_task_queued) !! 0%nat = Some (mkResult true 0%nat Any_none 0%nat)
  ∧ Z.of_nat (length (taskQue_ (pool (after one_task_queued))))
    <= to_size_t (taskQueMaxThreshHold_ (pool (after one_task_queued))).
Proof.
  assert (H1 : submitTask_step AtSubmitEntry no_timeout 0%nat (after started)
               = Some (Some 0%nat, after one_task_queued))
    by (vm_compute; reflexivity).
  assert (H2 : results (after one_task_queued) !! 0%nat
               = Some (mkResult (Val:=Z) true 0%nat Any_none 0%nat))
    by (vm_compute; reflexivity).
  split; [exact H1|]. split; [exact H2|].
  exact (proj1 (proj2 (proj2
    (submitTask_keeps_queue_within_threshold _ _ _ _ _ _ _ H1 H2 eq_refl)))).
Defined.

(** C7 fails as stated: with the threshold set to -1 the predicate of line 71
    compares the length 0 with [(size_t)-1] and holds, the task is enqueued
    and a valid future returned, and the queue, of length 1, is longer than
    the configured threshold. *)
Lemma negative_threshold_admits_task :
  taskQueMaxThreshHold_ (pool (after negative_threshold)) = -1
  ∧ submitTask_step AtSubmitEntry no_timeout 0%nat (after negative_threshold)
    = Some (Some 0%nat, after negative_threshold_submit)
  ∧ results (after negative_threshold_submit) !! 0%nat
    = Some (mkResult true 0%nat Any_none 0%nat)
  ∧ taskQue_ (pool (after negative_threshold_submit)) = [0%nat]
  ∧ taskQueMaxThreshHold_ (pool (after negative_threshold_submit)) = -1
  ∧ ¬ (Z.of_nat (length (taskQue_ (pool (after negative_threshold_submit))))
       <= taskQueMaxThreshHold_ (pool (after negative_threshold_submit))).
Proof.
  conjuncts; try (vm_compute; reflexivity).
  vm_compute. intros H. by apply H.
Qed.

Lemma threadFunc_drains_queue_after_teardown_witness :
  (isPoolRunning_ (pool (after teardown_with_task_queued)) = false
   ∧ threadFunc_step no_timeout 5 (mkWorker 0 AtLoopTop 5)
       (after teardown_with_task_queued)
     = Some (mkWorker 0 (AtExec 0%nat) 5,
             take_task 0%nat [] (after teardown_with_task_queued)))
  ∧ (reachable (after elastic_parked)
     ∧ isPoolRunning_ (pool (after elastic_parked)) = false
     ∧ workers (after elastic_parked) !! 0%nat
       = Some (mkWorker 0 InWaitFor 1000000000)
     ∧ taskQue_ (pool (after elastic_parked)) = [1%nat]
     ∧ threadFunc_step timeout 61000000000 (mkWorker 0 InWaitFor 1000000000)
         (after elastic_parked)
       = Some (mkWorker 0 Exited 1000000000,
               set_pool (reclaim 0 (pool (after elastic_parked))) (after elastic_parked))
     ∧ taskQue_ (reclaim 0 (pool (after elastic_parked))) = [1%nat]).
Proof.
  assert (H : isPoolRunning_ (pool (after teardown_with_task_queued)) = false)
    by (vm_compute; reflexivity).
  assert (Hq : taskQue_ (pool (after teardown_with_task_queued)) = [0%nat])
    by (vm_compute; reflexivity).
  assert (Hr : reachable (after elastic_parked)) by ran elastic_parked.
  assert (H' : isPoolRunning_ (pool (after elastic_parked)) = false)
    by (vm_compute; reflexivity).
  assert (Hw : workers (after elastic_parked) !! 0%nat
               = Some (mkWorker 0 InWaitFor 1000000000))
    by (vm_compute; reflexivity).
  assert (Hq' : taskQue_ (pool (after elastic_parked)) = [1%nat])
    by (vm_compute; reflexivity).
  assert (Hre : reclaims timeout 61000000000 (mkWorker 0 InWaitFor 1000000000)
                  (pool (after elastic_parked)) = true)
    by (vm_compute; reflexivity).
  split.
  - split; [exact H|].
    exact (proj1 (proj1 (proj2 (threadFunc_drains_queue_after_teardown
      (after teardown_with_task_queued) (mkWorker 0 AtLoopTop 5) no_timeout 5
      H (or_introl eq_refl)) eq_refl) 0%nat [] Hq)).
  - split; [exact Hr|]. split; [exact H'|]. split; [exact Hw|]. split; [exact Hq'|].
    destruct (proj1 (threadFunc_drains_queue_after_teardown
      (after elastic_parked) (mkWorker 0 InWaitFor 1000000000) timeout 61000000000
      H' (or_intror (or_intror eq_refl))) Hre) as (Hstep & Hsame & _).
    split; [exact Hstep|]. rewrite <- Hq'. exact Hsame.
Defined.

(** C1 fails as stated: the running flag is cleared while one task is
    queued; the worker then takes the task out of the queue and executes it:
    [run] moves the world from 0 to 1 and its value is published. *)
Lemma teardown_does_not_drop_queued_task :
  isPoolRunning_ (pool (after teardown_with_task_queued)) = false
  ∧ taskQue_ (pool (after teardown_with_task_queued)) = [0%nat]
  ∧ world (after teardown_with_task_queued) = 0%nat
  ∧ exec_actions worker_takes (after teardown_with_task_queued)
    = Some (after (teardown_with_task_queued ++ worker_takes))
  ∧ taskQue_ (pool (after (teardown_with_task_queued ++ worker_takes))) = []
  ∧ hist_deq (after (teardown_with_task_queued ++ worker_takes)) = [0%nat]
  ∧ step worker_runs (after (teardown_with_task_queued ++ worker_takes))
    = Some (after (teardown_with_task_queued ++ worker_takes ++ [worker_runs]))
  ∧ world (after (teardown_with_task_queued ++ worker_takes ++ [worker_runs])) = 1%nat
  ∧ results (after (teardown_with_task_queued ++ worker_takes ++ [worker_runs])) !! 0%nat
    = Some (mkResult true 0%nat (Any_box 7) 1%nat).
Proof. conjuncts; vm_compute; reflexivity. Qed.

Lemma worker_count_never_below_baseline_witness :
  reachable (after elastic_burst)
  ∧ initThreadSize_ (pool (after elastic_burst))
    <= curThreadSize_ (pool (after elastic_burst)).
Proof.
  assert (H : reachable (after elastic_burst)) by ran elastic_burst.
  split; [exact H|].
  exact (proj1 (worker_count_never_below_baseline (after elastic_burst) H)).
Defined.

Lemma worker_count_within_threshold_step_witness :
  reachable (after elastic_busy)
  ∧ curThreadSize_ (pool (after elastic_busy)) = 1
  ∧ step submit_second (after elastic_busy) = Some (after elastic_burst)
  ∧ curThreadSize_ (pool (after elastic_burst)) = 2
  ∧ curThreadSize_ (pool (after elastic_burst))
    <= threadSizeThreshHold_ (pool (after elastic_burst)).
Proof.
  assert (H1 : reachable (after elastic_busy)) by ran elastic_busy.
  assert (H2 : curThreadSize_ (pool (after elastic_busy))
               <= threadSizeThreshHold_ (pool (after elastic_busy)))
    by (vm_compute; discriminate).
  assert (H3 : step submit_second (after elastic_busy) = Some (after elastic_burst))
    by (vm_compute; reflexivity).
  split; [exact H1|]. split; [vm_compute; reflexivity|]. split; [exact H3|].
  split; [vm_compute; reflexivity|].
  exact (proj1 (worker_count_within_threshold_step submit_second
    (after elastic_busy) (after elastic_burst) H1 H2 I H3)).
Defined.

(** C5 fails as stated: a fresh pool, whose threshold is 1024, started with
    1025 workers has a current worker count of 1025. *)
Lemma start_exceeds_threshold :
  exec_actions oversized_start (initial 0%nat) = Some (after oversized_start)
  ∧ curThreadSize_ (pool (after oversized_start)) = 1025
  ∧ threadSizeThreshHold_ (pool (after oversized_start)) = 1024
  ∧ ¬ (curThreadSize_ (pool (after oversized_start))
       <= threadSizeThreshHold_ (pool (after oversized_start))).
Proof.
  conjuncts; try (vm_compute; reflexivity).
  vm_compute. intros H. by apply H.
Qed.

Lemma tasks_dequeued_in_submission_order_witness :
  reachable (after two_tasks_served)
  ∧ hist_enq (after two_tasks_served) = [0%nat; 1%nat]
  ∧ hist_deq (after two_tasks_served) ++ taskQue_ (pool (after two_tasks_served))
    = hist_enq (after two_tasks_served)
  ∧ hist_deq (after two_tasks_served) !! 0%nat = Some 0%nat
  ∧ hist_deq (after two_tasks_served) !! 1%nat = Some 1%nat.
Proof.
  assert (H : reachable (after two_tasks_served)) by ran two_tasks_served.
  assert (He : hist_enq (after two_tasks_served) = [0%nat; 1%nat])
    by (vm_compute; reflexivity).
  assert (H0 : hist_enq (after two_tasks_served) !! 0%nat = Some 0%nat)
    by (vm_compute; reflexivity).
  assert (H1 : hist_enq (after two_tasks_served) !! 1%nat = Some 1%nat)
    by (vm_compute; reflexivity).
  assert (Hl : (1 < length (hist_deq (after two_tasks_served)))%nat)
    by (vm_compute; lia).
  split; [exact H|]. split; [exact He|].
  split; [exact (proj1 (tasks_dequeued_in_submission_order _ H))|].
  exact (proj1 (proj2 (tasks_dequeued_in_submission_order _ H))
           0%nat 1%nat 0%nat 1%nat (Nat.lt_0_1) H0 H1 Hl).
Defined.

Lemma future_yields_value_of_run_witness :
  reachable (after started)
  ∧ notFull_pred (pool (after started)) = true
  ∧ submitTask_step AtSubmitEntry no_timeout 0%nat (after started)
    = Some (Some 0%nat, after one_task_queued)
  ∧ ∃ t s3 R R',
      tasks (after (one_task_queued ++ worker_takes)) !! 0%nat = Some t
      ∧ step (Step_threadFunc 0 no_timeout 6) (after (one_task_queued ++ worker_takes))
        = Some s3
      ∧ world s3 = snd (run t (world (after (one_task_queued ++ worker_takes))))
      ∧ results s3 !! 0%nat = Some R
      ∧ Result_get R
        = get_returns (fst (run t (world (after (one_task_queued ++ worker_takes))))) R'.
Proof.
  assert (H1 : reachable (after started)) by ran started.
  assert (H2 : notFull_pred (pool (after started)) = true) by (vm_compute; reflexivity).
  assert (H3 : submitTask_step AtSubmitEntry no_timeout 0%nat (after started)
               = Some (Some 0%nat, after one_task_queued))
    by (vm_compute; reflexivity).
  assert (H4 : undisturbed 0%nat (after one_task_queued)
                 (after (one_task_queued ++ worker_takes))).
  { apply undisturbed_step
      with (s' := after (one_task_queued ++ [Step_threadFunc 0 no_timeout 5]))
           (a := Step_threadFunc 0 no_timeout 5).
    - apply undisturbed_step
        with (s' := after one_task_queued) (a := Step_threadFunc 0 no_timeout 5).
      + apply undisturbed_refl.
      + vm_compute; reflexivity.
      + intros (pc & st & H); discriminate H.
      + intros (i & st & now & w & Ha & Hw & Hpc). injection Ha as <- <- <-.
        vm_compute in Hw. injection Hw as <-. discriminate Hpc.
    - vm_compute; reflexivity.
    - intros (pc & st & H); discriminate H.
    - intros (i & st & now & w & Ha & Hw & Hpc). injection Ha as <- <- <-.
      vm_compute in Hw. injection Hw as <-. discriminate Hpc. }
  assert (H5 : workers (after (one_task_queued ++ worker_takes)) !! 0%nat
               = Some (mkWorker 0 (AtExec 0%nat) 5))
    by (vm_compute; reflexivity).
  split; [exact H1|]. split; [exact H2|]. split; [exact H3|].
  exact (proj2 (future_yields_value_of_run _ _ _ _ _ _ _ H1 H2 H3 H4)
           0%nat no_timeout 6 _ H5 eq_refl).
Defined.

(** C2 fails as stated: the task object 0 is accepted and the call returns
    the future 0; the same object is submitted once more, which points it at
    the future 1; the worker then takes both queue entries and executes the
    task twice, and no task is left in the queue; the future 0 is still
    empty and its [get] blocks. *)
Lemma first_future_never_served :
  notFull_pred (pool (after started)) = true
  ∧ submitTask_step AtSubmitEntry no_timeout 0%nat (after started)
    = Some (Some 0%nat, after one_task_queued)
  ∧ exec_actions (submitted_again ++ worker_serves_both) (after one_task_queued)
    = Some (after (one_task_queued ++ submitted_again ++ worker_serves_both))
  ∧ hist_enq (after (one_task_queued ++ submitted_again ++ worker_serves_both))
    = [0%nat; 0%nat]
  ∧ hist_deq (after (one_task_queued ++ submitted_again ++ worker_serves_both))
    = [0%nat; 0%nat]
  ∧ taskQue_ (pool (after (one_task_queued ++ submitted_again ++ worker_serves_both)))
    = []
  ∧ world (after (one_task_queued ++ submitted_again ++ worker_serves_both)) = 2%nat
  ∧ results (after (one_task_queued ++ submitted_again ++ worker_serves_both))
    = [mkResult true 0%nat Any_none 0%nat; mkResult true 0%nat (Any_box 7) 2%nat]
  ∧ Result_get (mkResult (Val:=Z) true 0%nat Any_none 0%nat) = get_blocks.
Proof. conjuncts; vm_compute; reflexivity. Qed.

(** ** The pending task counter *)

Lemma incr_to_int z : incr (to_int z) = to_int (z + 1).
Proof.
  unfold incr, to_int. f_equal.
  replace ((z + 2147483648) mod 4294967296 - 2147483648 + 1 + 2147483648)
    with ((z + 2147483648) mod 4294967296 + 1) by lia.
  rewrite Zplus_mod_idemp_l. f_equal. lia.
Qed.

Lemma decr_to_int z : decr (to_int z) = to_int (z - 1).
Proof.
  unfold decr, to_int. f_equal.
  replace ((z + 2147483648) mod 4294967296 - 2147483648 - 1 + 2147483648)
    with ((z + 2147483648) mod 4294967296 + (-1)) by lia.
  rewrite Zplus_mod_idemp_l. f_equal. lia.
Qed.

(** What a step does to the queue and to its counter. *)
Lemma step_queue_cases {World Val : Type} (a : Action) (s s' : State World Val) :
  step a s = Some s' →
  (taskQue_ (pool s') = taskQue_ (pool s) ∧ taskSize_ (pool s') = taskSize_ (pool s))
  ∨ (∃ sp, taskQue_ (pool s') = taskQue_ (pool s) ++ [sp]
     ∧ taskSize_ (pool s') = incr (taskSize_ (pool s)))
  ∨ (∃ task, taskQue_ (pool s) = task :: taskQue_ (pool s')
     ∧ taskSize_ (pool s') = decr (taskSize_ (pool s))).
Proof.
  intros Hstep. destruct a; simpl in Hstep.
  - injection Hstep as <-. left. simpl. unfold setMode.
    by destruct (checkRunningState _).
  - injection Hstep as <-. left. simpl. unfold setTaskQueMaxThreshHold.
    by destruct (checkRunningState _).
  - injection Hstep as <-. left. simpl. unfold setThreadSizeThreshHold.
    destruct (checkRunningState _); [done|]. by destruct (PoolMode_eqb _ _).
  - apply start_frame in Hstep as (m & g & idle & ws & ->). by left.
  - injection Hstep as <-. by left.
  - unfold submitTask_step in Hstep.
    destruct (notFull_pred (pool s)).
    + destruct (submitTask_accept sp s) as [[r s0]|] eqn:Hacc; simpl in Hstep; [|done].
      injection Hstep as <-.
      apply submitTask_accept_cases in Hacc as (s2 & Hctor & Hs2).
      apply Result_ctor_inv in Hctor as (t & _ & _ & ->). simpl.
      right. left. exists sp.
      by destruct Hs2 as [-> | (_ & m & ws & g & ->)].
    + destruct pc, st; simpl in Hstep; try (injection Hstep as <-; by left).
      unfold submitTask_reject in Hstep.
      destruct (Result_ctor sp false s) as [[r s0]|] eqn:Hctor; simpl in Hstep; [|done].
      injection Hstep as <-.
      apply Result_ctor_inv in Hctor as (t & _ & _ & ->). by left.
  - destruct (workers s !! i) as [w|]; simpl in Hstep; [|done].
    destruct (threadFunc_step st now w s) as [[w' s0]|] eqn:Hw; simpl in Hstep; [|done].
    injection Hstep as <-. simpl.
    apply threadFunc_step_cases in Hw
      as [[_ ->] | [(_ & _ & _ & ->) | [(task & rest & Hq & _ & ->) | [(_ & _ & _ & ->)
         | [(task & _ & _ & He) | (_ & _ & ->)]]]]]; try by left.
    + right. right. exists task. by rewrite Hq.
    + apply Task_exec_inv in He as (t & _ & [[_ ->] | (res & r & _ & _ & ->)]); by left.
  - destruct (results s !! res) as [r|]; simpl in Hstep; [|done].
    destruct (Result_get r); injection Hstep as <-; by left.
  - injection Hstep as <-. by left.
Qed.

(** X1: in every reachable state the pending task counter [taskSize_] is the
    length of the queue, read as an [int]; it is the length itself as long
    as that fits an [int]. *)
Theorem taskSize_is_queue_length {World Val : Type} (s : State World Val) :
  reachable s →
  taskSize_ (pool s) = to_int (Z.of_nat (length (taskQue_ (pool s))))
  ∧ (Z.of_nat (length (taskQue_ (pool s))) <= INT32_MAX →
     taskSize_ (pool s) = Z.of_nat (length (taskQue_ (pool s)))).
Proof.
  intros Hr.
  assert (H : taskSize_ (pool s) = to_int (Z.of_nat (length (taskQue_ (pool s))))).
  { revert s Hr. apply reachable_invariant; [done|].
    intros a s s' Hinv Hstep.
    destruct (step_queue_cases a s s' Hstep)
      as [[-> ->] | [(sp & -> & ->) | (task & Hq & ->)]]; [done| |].
    - rewrite Hinv, incr_to_int, length_app. simpl. f_equal. lia.
    - rewrite Hinv, decr_to_int, Hq. simpl. f_equal. lia. }
  split; [exact H|]. intros Hle. rewrite H. apply to_int_id.
  unfold is_int, INT32_MIN, INT32_MAX in *. lia.
Qed.

(** ** start and the thread identifiers *)

Lemma incr_in_range g : INT32_MIN <= g → g < INT32_MAX → incr g = g + 1.
Proof.
  intros H1 H2. unfold incr. apply to_int_id.
  unfold is_int, INT32_MIN, INT32_MAX in *. lia.
Qed.

Lemma emplace_lookup_ne k j v (m : gmap Z Thread) :
  k ≠ j → emplace k v m !! j = m !! j.
Proof.
  intros Hne. unfold emplace. destruct (m !! k); [done|].
  by rewrite lookup_insert_ne.
Qed.

Lemma emplace_lookup_new k v (m : gmap Z Thread) :
  m !! k = None → emplace k v m !! k = Some v.
Proof. intros Hn. unfold emplace. rewrite Hn. apply lookup_insert_eq. Qed.

(** The first loop of [start] leaves the entries under the identifiers below
    the counter alone. *)
Lemma start_create_lookup_below {World Val : Type} (k : nat) (s : State World Val) j :
  INT32_MIN <= generateId_ s → generateId_ s + Z.of_nat k <= INT32_MAX →
  j < generateId_ s →
  threads_ (pool (start_create k s)) !! j = threads_ (pool s) !! j.
Proof.
  revert s. induction k as [|k IH]; intros s Hmin Hmax Hj; [done|].
  simpl. rewrite IH; simpl.
  - apply emplace_lookup_ne. unfold Thread_getId. simpl. lia.
  - rewrite incr_in_range by lia. lia.
  - rewrite incr_in_range by lia. lia.
  - rewrite incr_in_range by lia. lia.
Qed.

(** The first loop of [start], when no thread is registered from the counter
    upwards: it registers the next [k] identifiers and moves the counter by
    [k]. *)
Lemma start_create_spec {World Val : Type} (k : nat) (s : State World Val) :
  INT32_MIN <= generateId_ s → generateId_ s + Z.of_nat k <= INT32_MAX →
  (∀ j, generateId_ s <= j → threads_ (pool s) !! j = None) →
  generateId_ (start_create k s) = generateId_ s + Z.of_nat k
  ∧ ∀ j, threads_ (pool (start_create k s)) !! j =
         if bool_decide (generateId_ s <= j < generateId_ s + Z.of_nat k)
         then Some (mkThread j) else threads_ (pool s) !! j.
Proof.
  revert s. induction k as [|k IH]; intros s Hmin Hmax Hfree.
  - simpl. split; [lia|]. intros j. case_bool_decide; [lia|done].
  - simpl. rewrite incr_in_range by lia.
    destruct (IH (set_pool
      (set_threads_ (emplace (generateId_ s) (mkThread (generateId_ s)) (threads_ (pool s)))
         (pool s)) (set_generateId_ (generateId_ s + 1) s))) as [Hg Hl]; simpl.
    + lia.
    + lia.
    + intros j Hj. rewrite emplace_lookup_ne by lia. apply Hfree. lia.
    + simpl in Hg, Hl.
      split; [rewrite Hg; lia|]. intros j. rewrite Hl.
      destruct (decide (j = generateId_ s)) as [-> | Hne].
      * rewrite bool_decide_eq_false_2 by lia.
        rewrite bool_decide_eq_true_2 by lia.
        apply emplace_lookup_new. apply Hfree. lia.
      * rewrite emplace_lookup_ne by done.
        repeat case_bool_decide; try done; lia.
Qed.

(** The second loop of [start], when the threads it looks up are there. *)
Lemma start_launch_spec {World Val : Type} (k : nat) (i : Z) (s : State World Val) :
  (∀ j, i <= j < i + Z.of_nat k → threads_ (pool s) !! j = Some (mkThread j)) →
  start_launch k i s =
    Some (set_workers (workers s ++ launched k i)
            (set_pool (set_idleThreadSize_
                         (Nat.iter k incr (idleThreadSize_ (pool s))) (pool s)) s)).
Proof.
  revert i s. induction k as [|k IH]; intros i s Hthere.
  - simpl. rewrite app_nil_r. by destruct s as [[] ?].
  - simpl. rewrite (Hthere i) by lia. simpl. rewrite IH.
    + simpl. rewrite <- app_assoc. simpl. by rewrite <- Nat.iter_succ_r.
    + intros j Hj. simpl. apply Hthere. lia.
Qed.

Lemma iter_incr_from_zero (k : nat) :
  Z.of_nat k <= INT32_MAX → Nat.iter k incr 0 = Z.of_nat k.
Proof.
  induction k as [|k IH]; intros Hk; [done|].
  simpl Nat.iter. rewrite IH by lia.
  rewrite incr_in_range; unfold INT32_MIN, INT32_MAX in *; lia.
Qed.

Lemma start_fresh_spec {World Val : Type} (s : State World Val) (n : Z) :
  generateId_ s = 0 →
  threads_ (pool s) = ∅ →
  idleThreadSize_ (pool s) = 0 →
  0 <= n <= INT32_MAX →
  ∃ s', start n s = Some s'
    ∧ isPoolRunning_ (pool s') = true
    ∧ initThreadSize_ (pool s') = n
    ∧ curThreadSize_ (pool s') = n
    ∧ idleThreadSize_ (pool s') = n
    ∧ generateId_ s' = n
    ∧ (∀ j, threads_ (pool s') !! j
            = if bool_decide (0 <= j < n) then Some (mkThread j) else None)
    ∧ workers s' = workers s ++ launched (Z.to_nat n) 0
    ∧ taskQue_ (pool s') = taskQue_ (pool s)
    ∧ taskSize_ (pool s') = taskSize_ (pool s)
    ∧ poolMode_ (pool s') = poolMode_ (pool s)
    ∧ taskQueMaxThreshHold_ (pool s') = taskQueMaxThreshHold_ (pool s)
    ∧ threadSizeThreshHold_ (pool s') = threadSizeThreshHold_ (pool s).
Proof.
  intros Hg Hempty Hidle Hn. unfold start. simpl.
  set (s1 := set_pool (set_curThreadSize_ n
               (set_initThreadSize_ n (set_isPoolRunning_ true (pool s)))) s).
  assert (Hk : Z.of_nat (Z.to_nat n) = n) by lia.
  destruct (start_create_spec (Z.to_nat n) s1) as [Hid Hl]; simpl.
  - rewrite Hg. unfold INT32_MIN. lia.
  - rewrite Hg. lia.
  - intros j _. by rewrite Hempty.
  - simpl in Hid, Hl. rewrite Hg, Hk in Hid, Hl. rewrite Hempty in Hl.
    rewrite start_launch_spec.
    + destruct (start_create_frame (Z.to_nat n) s1) as (m & g & Hf).
      eexists. split; [reflexivity|]. simpl.
      rewrite Hf in Hid, Hl |- *. simpl in *.
      rewrite Hidle, iter_incr_from_zero by lia.
      conjuncts; try done; try lia.
    + intros j Hj. rewrite Hl. rewrite bool_decide_eq_true_2 by lia. done.
Qed.

(** X2: on a program that has made no thread yet (the static counter is 0,
    the registry is empty, no worker is counted idle), [start(n)] with
    [0 <= n] succeeds: the pool runs, [n] is the baseline, the current and
    the idle count, the registry holds exactly the threads 0 .. n-1, the
    counter stands at [n], and [n] detached workers with these identifiers
    are added, each at the entry of [threadFunc]; the queue, its counter,
    the mode and the thresholds are as before. *)
Theorem start_on_fresh_program {World Val : Type} (s : State World Val) (n : Z) :
  generateId_ s = 0 →
  threads_ (pool s) = ∅ →
  idleThreadSize_ (pool s) = 0 →
  0 <= n <= INT32_MAX →
  ∃ s', start n s = Some s'
    ∧ isPoolRunning_ (pool s') = true
    ∧ initThreadSize_ (pool s') = n
    ∧ curThreadSize_ (pool s') = n
    ∧ idleThreadSize_ (pool s') = n
    ∧ generateId_ s' = n
    ∧ (∀ j, threads_ (pool s') !! j
            = if bool_decide (0 <= j < n) then Some (mkThread j) else None)
    ∧ workers s' = workers s ++ launched (Z.to_nat n) 0
    ∧ taskQue_ (pool s') = taskQue_ (pool s)
    ∧ taskSize_ (pool s') = taskSize_ (pool s)
    ∧ poolMode_ (pool s') = poolMode_ (pool s)
    ∧ taskQueMaxThreshHold_ (pool s') = taskQueMaxThreshHold_ (pool s)
    ∧ threadSizeThreshHold_ (pool s') = threadSizeThreshHold_ (pool s).
Proof.
  intros Hg Hempty Hidle Hn.
  destruct (start_fresh_spec s n Hg Hempty Hidle Hn) as (s' & Hs & Hrest).
  exists s'. split; [exact Hs|exact Hrest].
Qed.

(** X3: [start] looks its threads up under the loop index 0, 1, ... and not
    under the identifiers it has just handed out.  When the static counter
    has moved on and no thread is registered under 0, [start(n)] with
    [1 <= n] calls [start()] through the null pointer that [threads_[0]]
    yields: it has no defined behaviour. *)
Theorem start_needs_identifiers_from_zero {World Val : Type}
    (s : State World Val) (n : Z) :
  0 < generateId_ s →
  generateId_ s + n <= INT32_MAX →
  1 <= n →
  threads_ (pool s) !! 0 = None →
  start n s = None.
Proof.
  intros Hg Hmax Hn H0. unfold start. simpl.
  destruct (Z.to_nat n) as [|k] eqn:Hk; [lia|].
  cbn [start_launch].
  rewrite start_create_lookup_below; simpl; try (unfold INT32_MIN; lia).
  by rewrite H0.
Qed.

(** ** The registry *)

(** A property of the registry that [emplace] of a thread under its own
    identifier and [erase] keep is kept by every step. *)
Lemma start_create_threads_closed {World Val : Type} (P : gmap Z Thread → Prop) :
  (∀ m k, P m → P (emplace k (mkThread k) m)) →
  ∀ k (s : State World Val), P (threads_ (pool s)) →
    P (threads_ (pool (start_create k s))).
Proof.
  intros Hemp k. induction k as [|k IH]; intros s HP; [done|].
  simpl. apply IH. simpl. by apply Hemp.
Qed.

Lemma start_threads {World Val : Type} (n : Z) (s s' : State World Val) :
  start n s = Some s' →
  threads_ (pool s') =
    threads_ (pool (start_create (Z.to_nat n)
      (set_pool (set_curThreadSize_ n
         (set_initThreadSize_ n (set_isPoolRunning_ true (pool s)))) s))).
Proof.
  unfold start. simpl. intros H.
  by apply start_launch_frame in H as (idle & ws & ->).
Qed.

Lemma spawn_thread_inv {World Val : Type} (s s' : State World Val) :
  spawn_thread s = Some s' →
  ∃ t, emplace (generateId_ s) (mkThread (generateId_ s)) (threads_ (pool s))
         !! generateId_ s = Some t
    ∧ s' = set_pool
             (set_idleThreadSize_ (incr (idleThreadSize_ (pool s)))
                (set_curThreadSize_ (incr (curThreadSize_ (pool s)))
                   (set_threads_
                      (emplace (generateId_ s) (mkThread (generateId_ s))
                         (threads_ (pool s))) (pool s))))
             (set_workers (workers s ++ [mkWorker (threadId_ t) AtEntry 0])
                (set_generateId_ (incr (generateId_ s)) s)).
Proof.
  unfold spawn_thread. simpl. unfold Thread_getId. simpl.
  destruct (emplace _ _ _ !! _) as [t|]; simpl; [|done].
  intros [= <-]. by exists t.
Qed.

Lemma step_threads_closed {World Val : Type} (P : gmap Z Thread → Prop) :
  (∀ m k, P m → P (emplace k (mkThread k) m)) →
  (∀ m k, P m → P (delete k m)) →
  ∀ (a : Action) (s s' : State World Val),
    step a s = Some s' → P (threads_ (pool s)) → P (threads_ (pool s')).
Proof.
  intros Hemp Hdel a s s' Hstep HP. destruct a; simpl in Hstep.
  - injection Hstep as <-. simpl. unfold setMode. by destruct (checkRunningState _).
  - injection Hstep as <-. simpl. unfold setTaskQueMaxThreshHold.
    by destruct (checkRunningState _).
  - injection Hstep as <-. simpl. unfold setThreadSizeThreshHold.
    destruct (checkRunningState _); [done|]. by destruct (PoolMode_eqb _ _).
  - rewrite (start_threads _ _ _ Hstep). by apply start_create_threads_closed.
  - by injection Hstep as <-.
  - unfold submitTask_step in Hstep.
    destruct (notFull_pred (pool s)).
    + destruct (submitTask_accept sp s) as [[r s0]|] eqn:Hacc; simpl in Hstep; [|done].
      injection Hstep as <-. unfold submitTask_accept in Hacc.
      destruct (must_grow _).
      * destruct (spawn_thread _) as [s2|] eqn:Hsp; simpl in Hacc; [|done].
        apply Result_ctor_inv in Hacc as (t & _ & _ & ->).
        apply spawn_thread_inv in Hsp as (t0 & _ & ->). simpl. by apply Hemp.
      * simpl in Hacc. by apply Result_ctor_inv in Hacc as (t & _ & _ & ->).
    + destruct pc, st; simpl in Hstep; try (by injection Hstep as <-).
      unfold submitTask_reject in Hstep.
      destruct (Result_ctor sp false s) as [[r s0]|] eqn:Hctor; simpl in Hstep; [|done].
      injection Hstep as <-.
      by apply Result_ctor_inv in Hctor as (t & _ & _ & ->).
  - destruct (workers s !! i) as [w|]; simpl in Hstep; [|done].
    destruct (threadFunc_step st now w s) as [[w' s0]|] eqn:Hw; simpl in Hstep; [|done].
    injection Hstep as <-. simpl.
    apply threadFunc_step_cases in Hw
      as [[_ ->] | [(_ & _ & _ & ->) | [(task & rest & _ & _ & ->) | [(_ & _ & _ & ->)
         | [(task & _ & _ & He) | (_ & _ & ->)]]]]]; simpl; try done.
    + by apply Hdel.
    + by apply Hdel.
    + by apply Task_exec_inv in He as (t & _ & [[_ ->] | (res & r & _ & _ & ->)]).
  - destruct (results s !! res) as [r|]; simpl in Hstep; [|done].
    destruct (Result_get r); by injection Hstep as <-.
  - by injection Hstep as <-.
Qed.

Lemma reachable_registry_ok {World Val : Type} (s : State World Val) :
  reachable s → registry_ok (pool s).
Proof.
  revert s. apply reachable_invariant; [done|].
  intros a s s' HP Hstep.
  refine (step_threads_closed
            (λ m, ∀ k t, m !! k = Some t → threadId_ t = k) _ _ a s s' Hstep HP).
  - intros m k Hm j t. destruct (decide (k = j)) as [<- | Hne].
    + unfold emplace. destruct (m !! k) as [t0|] eqn:Hk.
      * rewrite Hk. intros [= <-]. by apply Hm.
      * rewrite lookup_insert_eq. by intros [= <-].
    + rewrite emplace_lookup_ne by done. apply Hm.
  - intros m k Hm j t Hj. apply lookup_delete_Some in Hj as [_ Hj]. by apply Hm.
Qed.

(** X4: in every reachable state each entry of the registry holds the thread
    whose identifier is its key, so that [threads_.erase(threadid)] in a
    worker removes the [Thread] object of that very worker. *)
Theorem registry_keys_are_thread_ids {World Val : Type} (s : State World Val) :
  reachable s →
  ∀ k t, threads_ (pool s) !! k = Some t → t = mkThread k ∧ Thread_getId t = k.
Proof.
  intros Hr k t Hk. pose proof (reachable_registry_ok s Hr k t Hk) as Hid.
  destruct t as [i]. simpl in *. by subst.
Qed.


Lemma wait_loop_parks {World Val : Type} tid (s s0 : State World Val) pc :
  wait_loop tid s = (pc, s0) →
  pc = InWait ∨ pc = InWaitFor →
  taskQue_ (pool s) = [] ∧ isPoolRunning_ (pool s) = true ∧ s0 = s
  ∧ (pc = InWaitFor ↔ poolMode_ (pool s) = MODE_CACHED).
Proof.
  unfold wait_loop. destruct (taskQue_ (pool s)) as [|task rest].
  - destruct (isPoolRunning_ (pool s)); simpl.
    + destruct (poolMode_ (pool s)); simpl; intros [= <- <-] _;
        repeat split; done.
    + intros [= <- <-] [? | ?]; done.
  - intros [= <- <-] [? | ?]; done.
Qed.

(** X6: a worker parks on the condition variable only when, holding the
    lock, it has found the queue empty and the pool running; parking changes
    nothing, and the wait is the timed one exactly in cached mode. *)
Theorem threadFunc_parks_only_on_empty_queue {World Val : Type}
    (st : cv_status) (now : Z) (w w' : Worker) (s s' : State World Val) :
  threadFunc_step st now w s = Some (w', s') →
  w_pc w' = InWait ∨ w_pc w' = InWaitFor →
  taskQue_ (pool s) = [] ∧ isPoolRunning_ (pool s) = true ∧ s' = s
  ∧ (w_pc w' = InWaitFor ↔ poolMode_ (pool s) = MODE_CACHED).
Proof.
  unfold threadFunc_step, after_wait_for. intros Hstep Hpc.
  destruct (w_pc w); try destruct st; try destruct (must_reclaim _ _ _);
    try (destruct (wait_loop (w_threadid w) s) as [pc s0] eqn:Hw;
         injection Hstep as <- <-; simpl in *; by eapply wait_loop_parks);
    try (injection Hstep as <- <-; simpl in Hpc; by destruct Hpc).
  all: try done.
  all: destruct (Task_exec task s); simpl in Hstep; [|done].
  all: injection Hstep as <- <-; simpl in Hpc; by destruct Hpc.
Qed.

(** ** Growth of the pool in submitTask *)

(** X7: in fixed mode, and in any mode once the current worker count has
    reached the threshold, no step of [submitTask] makes a thread: the
    registry, the detached workers, the static identifier counter and the
    current and idle worker counts are as before. *)
Theorem submitTask_makes_no_thread {World Val : Type} (s s' : State World Val)
    (pc : SubmitPc) (st : cv_status) (sp : TaskAddr) (o : option ResultAddr) :
  poolMode_ (pool s) = MODE_FIXED
  ∨ threadSizeThreshHold_ (pool s) <= curThreadSize_ (pool s) →
  submitTask_step pc st sp s = Some (o, s') →
  threads_ (pool s') = threads_ (pool s)
  ∧ workers s' = workers s
  ∧ generateId_ s' = generateId_ s
  ∧ curThreadSize_ (pool s') = curThreadSize_ (pool s)
  ∧ idleThreadSize_ (pool s') = idleThreadSize_ (pool s).
Proof.
  intros Hno Hstep. unfold submitTask_step in Hstep.
  destruct (notFull_pred (pool s)).
  - destruct (submitTask_accept sp s) as [[r s0]|] eqn:Hacc; simpl in Hstep; [|done].
    injection Hstep as <- <-.
    apply submitTask_accept_cases in Hacc as (s2 & Hctor & Hs2).
    apply Result_ctor_inv in Hctor as (t & _ & _ & ->). simpl.
    destruct Hs2 as [-> | (Hgrow & _)]; [done|]. exfalso.
    unfold must_grow in Hgrow. simpl in Hgrow.
    apply andb_prop in Hgrow as [Hgrow Hlt]. apply andb_prop in Hgrow as [Hmode _].
    apply Z.ltb_lt in Hlt. apply PoolMode_eqb_eq in Hmode.
    destruct Hno as [Hno | Hno]; [congruence|lia].
  - destruct pc, st; simpl in Hstep; try (by injection Hstep as <- <-).
    unfold submitTask_reject in Hstep.
    destruct (Result_ctor sp false s) as [[r s0]|] eqn:Hctor; simpl in Hstep; [|done].
    injection Hstep as <- <-.
    by apply Result_ctor_inv in Hctor as (t & _ & _ & ->).
Qed.

(** X8: in cached mode, in a reachable state, a submission that finds room
    in the queue while the pending tasks, the new one included, outnumber
    the idle workers and the worker count is below its threshold makes
    exactly one thread: it is registered under the next identifier of the
    static counter, one detached worker with that identifier is added at the
    entry of [threadFunc], and the current and idle counts go up by one. *)
Theorem submitTask_grows_by_one_thread {World Val : Type} (s : State World Val)
    (pc : SubmitPc) (st : cv_status) (sp : TaskAddr) (t : Task World Val) :
  reachable s →
  poolMode_ (pool s) = MODE_CACHED →
  notFull_pred (pool s) = true →
  tasks s !! sp = Some t →
  idleThreadSize_ (pool s) < incr (taskSize_ (pool s)) →
  curThreadSize_ (pool s) < threadSizeThreshHold_ (pool s) →
  ∃ r s', submitTask_step pc st sp s = Some (Some r, s')
    ∧ workers s' = workers s ++ [mkWorker (generateId_ s) AtEntry 0]
    ∧ threads_ (pool s') !! generateId_ s = Some (mkThread (generateId_ s))
    ∧ (∀ j, j ≠ generateId_ s → threads_ (pool s') !! j = threads_ (pool s) !! j)
    ∧ generateId_ s' = incr (generateId_ s)
    ∧ curThreadSize_ (pool s') = curThreadSize_ (pool s) + 1
    ∧ idleThreadSize_ (pool s') = incr (idleThreadSize_ (pool s))
    ∧ taskQue_ (pool s') = taskQue_ (pool s) ++ [sp].
Proof.
  intros Hr Hmode Hpred Ht Hidle Hcur.
  pose proof (reachable_registry_ok s Hr) as Hreg.
  pose proof (reachable_ints_ok s Hr) as (_ & Hc & Hthr).
  unfold submitTask_step. rewrite Hpred. unfold submitTask_accept. cbv zeta.
  set (p1 := set_taskSize_ (incr (taskSize_ (pool s)))
               (set_taskQue_ (taskQue_ (pool s) ++ [sp]) (pool s))).
  set (s1 := set_hist_enq (hist_enq s ++ [sp]) (set_pool p1 s)).
  assert (Hgrow : must_grow p1 = true).
  { unfold must_grow. simpl. rewrite Hmode. simpl.
    apply andb_true_intro. split; [apply Z.gtb_lt; lia|by apply Z.ltb_lt]. }
  rewrite Hgrow.
  destruct (spawn_thread_total s1) as [s2 Hs2]. rewrite Hs2. simpl.
  apply spawn_thread_inv in Hs2 as (t0 & Ht0 & ->). simpl in Ht0.
  assert (Hid : t0 = mkThread (generateId_ s)).
  { unfold emplace in Ht0.
    destruct (threads_ (pool s) !! generateId_ s) as [t1|] eqn:Hl.
    - rewrite Hl in Ht0. injection Ht0 as <-.
      pose proof (Hreg _ _ Hl) as Hk. destruct t1 as [k]. simpl in Hk. by subst.
    - rewrite lookup_insert_eq in Ht0. by injection Ht0 as <-. }
  subst t0. erewrite Result_ctor_spec by (simpl; exact Ht). simpl.
  eexists _, _. split; [reflexivity|]. simpl.
  conjuncts; try done.
  - intros j Hj. by apply emplace_lookup_ne.
  - unfold incr. apply to_int_id. unfold is_int, INT32_MIN, INT32_MAX in *. lia.
Qed.

(** ** A rejected submission and the task's back pointer *)

(** X9: the rejection builds its invalid [Result] with the same constructor,
    so it points the task at the invalid future.  If the task is executed
    after that (it may be in the queue from an earlier, accepted call), [run]
    is called and its value stored in the invalid future, whose [get] still
    returns the empty literal; no other future is written. *)
Theorem rejected_submission_takes_over_task {World Val : Type}
    (s : State World Val) (sp : TaskAddr) (t : Task World Val) :
  notFull_pred (pool s) = false →
  tasks s !! sp = Some t →
  ∃ r s' s'' R,
    submitTask_step InNotFullWait timeout sp s = Some (Some r, s')
    ∧ r = length (results s)
    ∧ attached s' sp r
    ∧ Task_exec sp s' = Some s''
    ∧ world s'' = snd (run t (world s))
    ∧ results s'' !! r = Some R
    ∧ isValid_ R = false
    ∧ any_ R = fst (run t (world s))
    ∧ Result_get R = get_returns (Any_cstr "") R
    ∧ ∀ r0, r0 ≠ r → results s'' !! r0 = results s !! r0.
Proof.
  intros Hfull Ht. unfold submitTask_step, submitTask_reject. rewrite Hfull.
  rewrite (Result_ctor_spec s sp false t Ht). simpl.
  set (r := length (results s)).
  set (s' := set_tasks (<[sp := Task_setResult r t]> (tasks s))
               (set_results (results s ++ [mkResult false sp Any_none O]) s)).
  assert (Hsp : tasks s' !! sp = Some (Task_setResult r t)).
  { simpl. apply list_lookup_insert_eq. by eapply lookup_lt_Some. }
  assert (Hres : results s' !! r = Some (mkResult (Val:=Val) false sp Any_none O)).
  { simpl. subst r. rewrite lookup_app_r by lia. by rewrite Nat.sub_diag. }
  eexists r, s', _, _. split; [done|]. split; [done|].
  split; [by exists (Task_setResult r t)|].
  split; [exact (Task_exec_attached s' sp _ r _ Hsp eq_refl Hres)|]. simpl.
  split; [done|]. split.
  { apply list_lookup_insert_eq. rewrite length_app. simpl. subst r. lia. }
  conjuncts; try done.
  intros r0 Hne. rewrite list_lookup_insert_ne by done.
  destruct (decide (r0 < length (results s))%nat) as [Hlt | Hge].
  - by rewrite lookup_app_l.
  - rewrite lookup_app_r by lia. rewrite (lookup_ge_None_2 (results s)) by lia.
    subst r. destruct (r0 - length (results s))%nat eqn:Hd; [lia|done].
Qed.

(** ** The order of the configuration calls *)

(** X10: before the start of a pool in fixed mode, the worker count
    threshold is taken only if the mode is set to cached first: set after
    [setMode(MODE_CACHED)] it is stored, set before it is dropped and the
    old threshold stays. *)
Theorem threshold_taken_only_after_setMode (p : ThreadPool) (n : Z) :
  isPoolRunning_ p = false →
  poolMode_ p = MODE_FIXED →
  threadSizeThreshHold_ (setThreadSizeThreshHold n (setMode MODE_CACHED p)) = n
  ∧ threadSizeThreshHold_ (setMode MODE_CACHED (setThreadSizeThreshHold n p))
    = threadSizeThreshHold_ p
  ∧ poolMode_ (setThreadSizeThreshHold n (setMode MODE_CACHED p)) = MODE_CACHED
  ∧ poolMode_ (setMode MODE_CACHED (setThreadSizeThreshHold n p)) = MODE_CACHED.
Proof.
  intros Hrun Hmode.
  unfold setThreadSizeThreshHold, setMode, checkRunningState.
  rewrite Hrun, Hmode. simpl. by rewrite ?Hrun, ?Hmode.
Qed.

(** ** Publishing and getting, in numbers *)

Lemma publish_snoc {Val : Type} (vals : list (Any Val)) a (r : Result Val) :
  publish (vals ++ [a]) r = Result_setVal a (publish vals r).
Proof. unfold publish. by rewrite fold_left_app. Qed.

Lemma publish_fields {Val : Type} (vals : list (Any Val)) (r : Result Val) :
  isValid_ (publish vals r) = isValid_ r
  ∧ task_ (publish vals r) = task_ r
  ∧ sem_ (publish vals r) = (sem_ r + length vals)%nat.
Proof.
  induction vals as [|a vals IH] using rev_ind.
  - simpl. repeat split; lia.
  - rewrite publish_snoc, length_app. simpl.
    destruct IH as (-> & -> & ->). repeat split; lia.
Qed.

Lemma gets_moved_out {Val : Type} (k : nat) (task : TaskAddr) :
  gets k (mkResult (Val:=Val) true task Any_none k)
  = Some (replicate k Any_none, mkResult true task Any_none O).
Proof. induction k as [|k IH]; [done|]. simpl. by rewrite IH. Qed.

(** X11: [setVal] and [get] count through the semaphore.  After one or more
    calls of [setVal] on a valid result nobody has waited for, as many calls
    of [get] return without blocking; the first returns the value of the last
    [setVal], all earlier values are overwritten, and each later call returns
    the moved-from, empty box; one call more blocks. *)
Theorem gets_after_publications {Val : Type} (r : Result Val)
    (vals : list (Any Val)) (a : Any Val) :
  isValid_ r = true →
  sem_ r = O →
  gets (S (length vals)) (publish (vals ++ [a]) r)
    = Some (a :: replicate (length vals) Any_none,
            mkResult true (task_ r) Any_none O)
  ∧ gets (S (S (length vals))) (publish (vals ++ [a]) r) = None.
Proof.
  intros Hvalid Hsem. rewrite publish_snoc.
  destruct (publish_fields vals r) as (Hv & Ht & Hs).
  rewrite Hvalid in Hv. rewrite Hsem in Hs. simpl in Hs.
  assert (Hget : Result_get (Result_setVal a (publish vals r))
                 = get_returns a (mkResult true (task_ r) Any_none (length vals))).
  { unfold Result_get, Result_setVal. simpl. by rewrite Hv, Ht, Hs. }
  split.
  - cbn [gets]. rewrite Hget, gets_moved_out. done.
  - change (gets (S (S (length vals))) (Result_setVal a (publish vals r)))
      with (match Result_get (Result_setVal a (publish vals r)) with
            | get_blocks => None
            | get_returns a0 r' =>
                '(l, r'') ← gets (S (length vals)) r'; Some (a0 :: l, r'')
            end).
    rewrite Hget. clear Hget.
    assert (Hblock : ∀ k, gets (S k) (mkResult (Val:=Val) true (task_ r) Any_none k) = None).
    { induction k as [|k IH]; [done|].
      change (gets (S (S k)) (mkResult (Val:=Val) true (task_ r) Any_none (S k)))
        with ('(l, r'') ← gets (S k) (mkResult (Val:=Val) true (task_ r) Any_none k);
              Some (Any_none :: l, r'')).
      by rewrite IH. }
    by rewrite Hblock.
Qed.

(** ** A worker can always take its step *)

Lemma start_launch_workers {World Val : Type} (k : nat) (i : Z) (s s' : State World Val) :
  start_launch k i s = Some s' →
  ∀ w, w ∈ workers s' → w ∈ workers s ∨ w_pc w = AtEntry.
Proof.
  revert i s. induction k as [|k IH]; intros i s; simpl.
  - intros [= <-] w Hw. by left.
  - destruct (threads_ (pool s) !! i) as [t|]; simpl; [|done].
    intros H w Hw. destruct (IH _ _ H w Hw) as [Hin | Hpc]; [|by right].
    simpl in Hin. apply elem_of_app in Hin as [Hin | Hin]; [by left|].
    apply list_elem_of_singleton in Hin as ->. by right.
Qed.

Lemma start_workers {World Val : Type} (n : Z) (s s' : State World Val) :
  start n s = Some s' →
  ∀ w, w ∈ workers s' → w ∈ workers s ∨ w_pc w = AtEntry.
Proof.
  unfold start. intros H w Hw.
  destruct (start_launch_workers _ _ _ _ H w Hw) as [Hin | Hpc]; [|by right].
  left. revert Hin.
  match goal with |- context [start_create ?k ?s1] =>
    destruct (start_create_frame k s1) as (m & g & ->) end.
  done.
Qed.

(** What a step does to the tasks on the heap, to the queue and to the tasks
    the workers have in hand. *)
Lemma step_tasks_cases {World Val : Type} (a : Action) (s s' : State World Val) :
  step a s = Some s' →
  (length (tasks s) <= length (tasks s'))%nat
  ∧ (∀ t, t ∈ taskQue_ (pool s') →
       t ∈ taskQue_ (pool s) ∨ (t < length (tasks s'))%nat)
  ∧ (∀ w t, w ∈ workers s' → w_pc w = AtExec t →
       w ∈ workers s ∨ t ∈ taskQue_ (pool s)).
Proof.
  assert (Hsame : ∀ s0 : State World Val,
    tasks s0 = tasks s → taskQue_ (pool s0) = taskQue_ (pool s) →
    workers s0 = workers s →
    (length (tasks s) <= length (tasks s0))%nat
    ∧ (∀ t, t ∈ taskQue_ (pool s0) →
         t ∈ taskQue_ (pool s) ∨ (t < length (tasks s0))%nat)
    ∧ (∀ w t, w ∈ workers s0 → w_pc w = AtExec t →
         w ∈ workers s ∨ t ∈ taskQue_ (pool s))).
  { intros s0 -> -> ->. split; [lia|]. split; intros; by left. }
  intros Hstep. destruct a; simpl in Hstep.
  - injection Hstep as <-. apply Hsame; simpl; try done.
    unfold setMode. by destruct (checkRunningState _).
  - injection Hstep as <-. apply Hsame; simpl; try done.
    unfold setTaskQueMaxThreshHold. by destruct (checkRunningState _).
  - injection Hstep as <-. apply Hsame; simpl; try done.
    unfold setThreadSizeThreshHold.
    destruct (checkRunningState _); [done|]. by destruct (PoolMode_eqb _ _).
  - pose proof (start_workers _ _ _ Hstep) as Hws.
    apply start_frame in Hstep as (m & g & idle & ws & ->). simpl in *.
    split; [lia|]. split; [intros; by left|].
    intros w t Hw Hpc. destruct (Hws w Hw) as [? | Hent]; [by left|congruence].
  - injection Hstep as <-. simpl. rewrite length_app. simpl.
    split; [lia|]. split; intros; by left.
  - unfold submitTask_step in Hstep.
    destruct (notFull_pred (pool s)).
    + destruct (submitTask_accept sp s) as [[r s0]|] eqn:Hacc; simpl in Hstep; [|done].
      injection Hstep as <-. unfold submitTask_accept in Hacc.
      destruct (must_grow _).
      * destruct (spawn_thread _) as [s2|] eqn:Hsp; simpl in Hacc; [|done].
        apply spawn_thread_inv in Hsp as (t0 & _ & ->).
        apply Result_ctor_inv in Hacc as (t & Ht & _ & ->). simpl in *.
        rewrite length_insert. split; [lia|]. split.
        -- intros t1 Hin. apply elem_of_app in Hin as [Hin | Hin]; [by left|].
           apply list_elem_of_singleton in Hin as ->. right.
           by eapply lookup_lt_Some.
        -- intros w t1 Hin Hpc. apply elem_of_app in Hin as [Hin | Hin]; [by left|].
           apply list_elem_of_singleton in Hin as ->. done.
      * simpl in Hacc. apply Result_ctor_inv in Hacc as (t & Ht & _ & ->). simpl in *.
        rewrite length_insert. split; [lia|]. split; [|intros; by left].
        intros t1 Hin. apply elem_of_app in Hin as [Hin | Hin]; [by left|].
        apply list_elem_of_singleton in Hin as ->. right. by eapply lookup_lt_Some.
    + destruct pc, st; simpl in Hstep;
        try (injection Hstep as <-; by apply Hsame).
      unfold submitTask_reject in Hstep.
      destruct (Result_ctor sp false s) as [[r s0]|] eqn:Hctor; simpl in Hstep; [|done].
      injection Hstep as <-.
      apply Result_ctor_inv in Hctor as (t & _ & _ & ->). simpl.
      rewrite length_insert. split; [lia|]. split; intros; by left.
  - destruct (workers s !! i) as [w|] eqn:Hwi; simpl in Hstep; [|done].
    destruct (threadFunc_step st now w s) as [[w' s0]|] eqn:Hw; simpl in Hstep; [|done].
    injection Hstep as <-. simpl.
    assert (Hins : ∀ ws (P : Prop), ws = workers s →
      (∀ t, w_pc w' = AtExec t → t ∈ taskQue_ (pool s)) →
      ∀ w0 t, w0 ∈ <[i := w']> ws → w_pc w0 = AtExec t →
        w0 ∈ workers s ∨ t ∈ taskQue_ (pool s)).
    { intros ws _ -> Hpc' w0 t Hin Hpc.
      apply list_elem_of_lookup in Hin as (j & Hj).
      apply list_lookup_insert_Some in Hj as [(_ & <- & _) | (_ & Hj)].
      - right. by apply Hpc'.
      - left. by eapply list_elem_of_lookup_2. }
    apply threadFunc_step_cases in Hw
      as [[Hpc ->] | [(_ & _ & Hpc & ->) | [(task & rest & Hq & Hpc & ->)
         | [(_ & _ & Hpc & ->) | [(task & _ & Hpc & He) | (_ & Hpc & ->)]]]]]; simpl.
    + split; [lia|]. split; [intros; by left|].
      apply (Hins _ True eq_refl). intros t Ht. destruct Hpc as [? | [? | ?]]; congruence.
    + split; [lia|]. split; [intros; by left|].
      apply (Hins _ True eq_refl). intros t Ht. congruence.
    + split; [lia|]. split.
      * intros t Hin. left. rewrite Hq. by apply elem_of_cons; right.
      * apply (Hins _ True eq_refl). intros t Ht. rewrite Hpc in Ht.
        injection Ht as <-. rewrite Hq. by apply elem_of_cons; left.
    + split; [lia|]. split; [intros; by left|].
      apply (Hins _ True eq_refl). intros t Ht. congruence.
    + apply Task_exec_inv in He as (t & _ & [[_ ->] | (res & r & _ & _ & ->)]); simpl.
      * split; [lia|]. split; [intros; by left|].
        apply (Hins _ True eq_refl). intros t0 Ht0. congruence.
      * split; [lia|]. split; [intros; by left|].
        apply (Hins _ True eq_refl). intros t0 Ht0. congruence.
    + split; [lia|]. split; [intros; by left|].
      apply (Hins _ True eq_refl). intros t Ht. congruence.
  - destruct (results s !! res) as [r|]; simpl in Hstep; [|done].
    destruct (Result_get r); injection Hstep as <-; by apply Hsame.
  - injection Hstep as <-. by apply Hsame.
Qed.

Lemma reachable_tasks_ok {World Val : Type} (s : State World Val) :
  reachable s → tasks_ok s.
Proof.
  revert s. apply reachable_invariant.
  - intros w. split.
    + intros t Hin. by apply elem_of_nil in Hin.
    + intros w0 t Hin. by apply elem_of_nil in Hin.
  - intros a s s' [Hq Hw] Hstep.
    destruct (step_tasks_cases a s s' Hstep) as (Hlen & Hq' & Hw').
    split.
    + intros t Hin. apply lookup_lt_is_Some.
      destruct (Hq' t Hin) as [Hold | Hnew]; [|done].
      apply Hq, lookup_lt_is_Some in Hold. lia.
    + intros w t Hin Hpc. apply lookup_lt_is_Some.
      destruct (Hw' w t Hin Hpc) as [Hold | Hold].
      * eapply Hw, lookup_lt_is_Some in Hold; [|exact Hpc]. lia.
      * apply Hq, lookup_lt_is_Some in Hold. lia.
Qed.

(** X12: in every reachable state each detached worker that has not returned
    can take its next step, whatever the status of its wake-up and the clock
    are: the task it has in hand is on the heap, and the back pointer of
    that task, when set, leads to a result (futures being kept alive by
    their callers).  In particular the head of the queue is always a task
    that [exec] can be called on. *)
Theorem worker_step_is_defined {World Val : Type} (s : State World Val)
    (i : nat) (w : Worker) (st : cv_status) (now : Z) :
  reachable s →
  workers s !! i = Some w →
  w_pc w ≠ Exited →
  is_Some (step (Step_threadFunc i st now) s)
  ∧ ∀ task, w_pc w = AtExec task → is_Some (Task_exec task s).
Proof.
  intros Hr Hw Hpc.
  pose proof (reachable_tasks_ok s Hr) as [_ Hhand].
  pose proof (reachable_heap_ok s Hr) as Hheap.
  assert (Hexec : ∀ task, w_pc w = AtExec task → is_Some (Task_exec task s)).
  { intros task Ht.
    destruct (Hhand w task (list_elem_of_lookup_2 _ _ _ Hw) Ht) as [t Htask].
    destruct (result_ t) as [res|] eqn:Hres.
    - destruct (Hheap task t res Htask Hres) as (R & HR & _).
      rewrite (Task_exec_attached s task t res R Htask Hres HR). eauto.
    - rewrite (Task_exec_unattached s task t Htask Hres). eauto. }
  split; [|exact Hexec].
  simpl. rewrite Hw. simpl. unfold threadFunc_step.
  destruct (w_pc w) eqn:Hp; simpl; try (by eauto).
  - destruct (wait_loop _ _). simpl. eauto.
  - destruct (after_wait_for _ _ _ _). simpl. eauto.
  - destruct (wait_loop _ _). simpl. eauto.
  - destruct (Hexec task eq_refl) as [s0 ->]. simpl. eauto.
Qed.

(** ** Teardown right after the start *)

Lemma launched_lookup (k : nat) (i : Z) (j : nat) :
  (j < k)%nat → launched k i !! j = Some (mkWorker (i + Z.of_nat j) AtEntry 0).
Proof.
  revert i j. induction k as [|k IH]; intros i j Hj; [lia|].
  destruct j as [|j]; simpl.
  - do 2 f_equal. lia.
  - rewrite IH by lia. do 2 f_equal. lia.
Qed.

Lemma launched_length (k : nat) (i : Z) : length (launched k i) = k.
Proof. revert i. induction k as [|k IH]; intros i; simpl; [done|by rewrite IH]. Qed.

Lemma exec_actions_app {World Val : Type} (a b : list Action) (s : State World Val) :
  exec_actions (a ++ b) s = exec_actions a s ≫= exec_actions b.
Proof.
  revert s. induction a as [|x a IH]; intros s; [done|].
  simpl. destruct (step x s) as [s1|]; simpl; [apply IH|done].
Qed.

(** The two steps of one worker when the pool is not running and the queue
    is empty: it returns and its entry is erased. *)
Lemma worker_exits_at_teardown {World Val : Type} (s : State World Val)
    (i : nat) (tid now : Z) :
  workers s !! i = Some (mkWorker tid AtEntry 0) →
  isPoolRunning_ (pool s) = false →
  taskQue_ (pool s) = [] →
  exec_actions [Step_threadFunc i no_timeout now; Step_threadFunc i no_timeout now] s
  = Some (set_workers (<[i := mkWorker tid Exited now]> (workers s))
            (set_pool (erase_thread tid (pool s)) s)).
Proof.
  intros Hw Hrun Hq. pose proof (lookup_lt_Some _ _ _ Hw) as Hlt.
  cbn [exec_actions]. cbn [step]. rewrite Hw. simpl.
  rewrite list_lookup_insert_eq by done. simpl.
  unfold threadFunc_step, wait_loop. simpl. rewrite Hq, Hrun. simpl.
  by rewrite list_insert_insert_eq.
Qed.

Lemma workers_run_to_test_spec {World Val : Type} (k i : nat) (now : Z)
    (s : State World Val) :
  isPoolRunning_ (pool s) = false →
  taskQue_ (pool s) = [] →
  (∀ j, (j < k)%nat →
     workers s !! (i + j)%nat = Some (mkWorker (Z.of_nat (i + j)) AtEntry 0)) →
  ∃ s', exec_actions (workers_run_to_test k i now) s = Some s'
    ∧ length (workers s') = length (workers s)
    ∧ (∀ j, workers s' !! j =
            if bool_decide (i ≤ j < i + k)%nat
            then Some (mkWorker (Z.of_nat j) Exited now) else workers s !! j)
    ∧ (∀ key, threads_ (pool s') !! key =
              if bool_decide (Z.of_nat i <= key < Z.of_nat (i + k))
              then None else threads_ (pool s) !! key).
Proof.
  revert i s. induction k as [|k IH]; intros i s Hrun Hq Hws.
  - exists s. split; [done|]. split; [done|]. split.
    + intros j. case_bool_decide; [lia|done].
    + intros key. case_bool_decide; [lia|done].
  - pose proof (Hws O ltac:(lia)) as Hw0. rewrite Nat.add_0_r in Hw0.
    pose proof (worker_exits_at_teardown s i _ now Hw0 Hrun Hq) as Hstep.
    set (s1 := set_workers (<[i := mkWorker (Z.of_nat i) Exited now]> (workers s))
                 (set_pool (erase_thread (Z.of_nat i) (pool s)) s)) in *.
    destruct (IH (S i) s1) as (s' & Hex & Hlen & Hwl & Htl).
    + done.
    + done.
    + intros j Hj. simpl. rewrite list_lookup_insert_ne by lia.
      replace (S (i + j)) with (i + S j)%nat by lia. apply Hws. lia.
    + exists s'. split.
      { change (workers_run_to_test (S k) i now)
          with ([Step_threadFunc (World:=World) (Val:=Val) i no_timeout now;
                 Step_threadFunc i no_timeout now]
                ++ workers_run_to_test k (S i) now).
        by rewrite exec_actions_app, Hstep. }
      split; [rewrite Hlen; simpl; by rewrite length_insert|]. split.
      * intros j. rewrite Hwl. simpl.
        destruct (decide (j = i)) as [-> | Hne].
        -- rewrite bool_decide_eq_false_2 by lia.
           rewrite bool_decide_eq_true_2 by lia.
           apply list_lookup_insert_eq. by eapply lookup_lt_Some.
        -- rewrite list_lookup_insert_ne by done.
           repeat case_bool_decide; try done; lia.
      * intros key. rewrite Htl. simpl.
        destruct (decide (key = Z.of_nat i)) as [-> | Hne].
        -- rewrite bool_decide_eq_false_2 by lia.
           rewrite bool_decide_eq_true_2 by lia. apply lookup_delete_eq.
        -- rewrite lookup_delete_ne by done.
           repeat case_bool_decide; try done; lia.
Qed.

(** X13: a program that has made no thread yet starts its pool with [n]
    workers and destroys it at once, while the queue is empty.  When each
    worker has entered [threadFunc] and gone through the test of its loop,
    every worker has returned, the registry is empty, and the wait that ends
    the destructor (line 32) can return. *)
Theorem teardown_after_start_completes {World Val : Type} (s : State World Val)
    (n now : Z) :
  generateId_ s = 0 →
  threads_ (pool s) = ∅ →
  idleThreadSize_ (pool s) = 0 →
  workers s = [] →
  taskQue_ (pool s) = [] →
  0 <= n <= INT32_MAX →
  ∃ s', exec_actions (start_then_teardown n now) s = Some s'
    ∧ threads_ (pool s') = ∅
    ∧ dtor_may_return (pool s') = true
    ∧ length (workers s') = Z.to_nat n
    ∧ ∀ w, w ∈ workers s' → w_pc w = Exited.
Proof.
  intros Hg Hempty Hidle Hws Hq Hn.
  assert (Hint : to_int n = n).
  { apply to_int_id. unfold is_int, INT32_MIN, INT32_MAX in *. lia. }
  destruct (start_fresh_spec s n Hg Hempty Hidle Hn)
    as (s1 & Hs1 & _ & _ & _ & _ & _ & Hth & Hw1 & Hq1 & _).
  rewrite Hws in Hw1. simpl in Hw1. rewrite Hq in Hq1.
  set (s2 := set_pool (dtor_begin (pool s1)) s1).
  destruct (workers_run_to_test_spec (Z.to_nat n) 0 now s2) as (s' & Hex & Hlen & Hwl & Htl).
  - done.
  - done.
  - intros j Hj. simpl. rewrite Hw1, launched_lookup by done. do 2 f_equal. 
  - exists s'. split.
    { unfold start_then_teardown. cbn [exec_actions step]. rewrite Hint, Hs1. done. }
    assert (Hnone : threads_ (pool s') = ∅).
    { apply map_empty. intros key. rewrite Htl. simpl. rewrite Hth.
      repeat case_bool_decide; try done; lia. }
    split; [exact Hnone|]. split.
    { unfold dtor_may_return. rewrite Hnone. by rewrite map_size_empty. }
    split.
    { rewrite Hlen. simpl. by rewrite Hw1, launched_length. }
    intros w Hin. apply list_elem_of_lookup in Hin as (j & Hj).
    rewrite Hwl in Hj. case_bool_decide as Hrange.
    + by injection Hj as <-.
    + simpl in Hj. rewrite Hw1 in Hj. apply lookup_lt_Some in Hj.
      rewrite launched_length in Hj. lia.
Qed.

(** ** Closed instances of the further properties *)

Lemma taskSize_is_queue_length_witness :
  reachable (after one_task_queued)
  ∧ taskSize_ (pool (after one_task_queued))
    = to_int (Z.of_nat (length (taskQue_ (pool (after one_task_queued))))).
Proof.
  assert (H : reachable (after one_task_queued)) by ran one_task_queued.
  split; [exact H|].
  exact (proj1 (taskSize_is_queue_length (after one_task_queued) H)).
Defined.

Lemma start_on_fresh_program_witness :
  generateId_ (after task_made) = 0
  ∧ threads_ (pool (after task_made)) = ∅
  ∧ idleThreadSize_ (pool (after task_made)) = 0
  ∧ ∃ s', start 2 (after task_made) = Some s'
      ∧ curThreadSize_ (pool s') = 2
      ∧ workers s' = workers (after task_made) ++ launched 2 0.
Proof.
  assert (H1 : generateId_ (after task_made) = 0) by (vm_compute; reflexivity).
  assert (H2 : threads_ (pool (after task_made)) = ∅) by (vm_compute; reflexivity).
  assert (H3 : idleThreadSize_ (pool (after task_made)) = 0) by (vm_compute; reflexivity).
  assert (H4 : 0 <= 2 <= INT32_MAX) by (unfold INT32_MAX; lia).
  split; [exact H1|]. split; [exact H2|]. split; [exact H3|].
  destruct (start_on_fresh_program (after task_made) 2 H1 H2 H3 H4)
    as (s' & Hs & _ & _ & Hc & _ & _ & _ & Hw & _).
  exists s'. split; [exact Hs|]. split; [exact Hc|exact Hw].
Defined.

Lemma start_needs_identifiers_from_zero_witness :
  reachable (after early_growth)
  ∧ generateId_ (after early_growth) = 1
  ∧ threads_ (pool (after early_growth)) !! 0 = None
  ∧ start 1 (after early_growth) = None.
Proof.
  assert (H0 : reachable (after early_growth)) by ran early_growth.
  assert (H1 : 0 < generateId_ (after early_growth)) by (vm_compute; reflexivity).
  assert (H2 : generateId_ (after early_growth) + 1 <= INT32_MAX)
    by (vm_compute; discriminate).
  assert (H3 : 1 <= 1) by lia.
  assert (H4 : threads_ (pool (after early_growth)) !! 0 = None)
    by (vm_compute; reflexivity).
  split; [exact H0|]. split; [vm_compute; reflexivity|]. split; [exact H4|].
  exact (start_needs_identifiers_from_zero (after early_growth) 1 H1 H2 H3 H4).
Defined.

Lemma registry_keys_are_thread_ids_witness :
  reachable (after elastic_burst)
  ∧ threads_ (pool (after elastic_burst)) !! 1 = Some (mkThread 1)
  ∧ Thread_getId (mkThread 1) = 1.
Proof.
  assert (H1 : reachable (after elastic_burst)) by ran elastic_burst.
  assert (H2 : threads_ (pool (after elastic_burst)) !! 1 = Some (mkThread 1))
    by (vm_compute; reflexivity).
  split; [exact H1|]. split; [exact H2|].
  exact (proj2 (registry_keys_are_thread_ids (after elastic_burst) H1 1 _ H2)).
Defined.


Lemma threadFunc_parks_only_on_empty_queue_witness :
  threadFunc_step no_timeout 5 (mkWorker 0 AtLoopTop 5) (after started)
    = Some (mkWorker 0 InWait 5, after started)
  ∧ taskQue_ (pool (after started)) = []
  ∧ isPoolRunning_ (pool (after started)) = true.
Proof.
  assert (H : threadFunc_step no_timeout 5 (mkWorker 0 AtLoopTop 5) (after started)
              = Some (mkWorker 0 InWait 5, after started))
    by (vm_compute; reflexivity).
  split; [exact H|].
  destruct (threadFunc_parks_only_on_empty_queue _ _ _ _ _ _ H (or_introl eq_refl))
    as (Hq & Hrun & _).
  split; [exact Hq|exact Hrun].
Defined.

Lemma submitTask_makes_no_thread_witness :
  poolMode_ (pool (after started)) = MODE_FIXED
  ∧ submitTask_step AtSubmitEntry no_timeout 0%nat (after started)
    = Some (Some 0%nat, after one_task_queued)
  ∧ workers (after one_task_queued) = workers (after started).
Proof.
  assert (H1 : poolMode_ (pool (after started)) = MODE_FIXED)
    by (vm_compute; reflexivity).
  assert (H2 : submitTask_step AtSubmitEntry no_timeout 0%nat (after started)
               = Some (Some 0%nat, after one_task_queued))
    by (vm_compute; reflexivity).
  split; [exact H1|]. split; [exact H2|].
  exact (proj1 (proj2 (submitTask_makes_no_thread _ _ _ _ _ _ (or_introl H1) H2))).
Defined.

Lemma submitTask_grows_by_one_thread_witness :
  reachable (after elastic_busy)
  ∧ poolMode_ (pool (after elastic_busy)) = MODE_CACHED
  ∧ tasks (after elastic_busy) !! 1%nat = Some (Task_ctor (counting_task 8))
  ∧ ∃ r s', submitTask_step AtSubmitEntry no_timeout 1%nat (after elastic_busy)
            = Some (Some r, s')
      ∧ workers s' = workers (after elastic_busy)
                     ++ [mkWorker (generateId_ (after elastic_busy)) AtEntry 0].
Proof.
  assert (H1 : reachable (after elastic_busy)) by ran elastic_busy.
  assert (H2 : poolMode_ (pool (after elastic_busy)) = MODE_CACHED)
    by (vm_compute; reflexivity).
  assert (H3 : notFull_pred (pool (after elastic_busy)) = true)
    by (vm_compute; reflexivity).
  assert (H4 : tasks (after elastic_busy) !! 1%nat = Some (Task_ctor (counting_task 8)))
    by (vm_compute; reflexivity).
  assert (H5 : idleThreadSize_ (pool (after elastic_busy))
               < incr (taskSize_ (pool (after elastic_busy))))
    by (vm_compute; reflexivity).
  assert (H6 : curThreadSize_ (pool (after elastic_busy))
               < threadSizeThreshHold_ (pool (after elastic_busy)))
    by (vm_compute; reflexivity).
  split; [exact H1|]. split; [exact H2|]. split; [exact H4|].
  destruct (submitTask_grows_by_one_thread (after elastic_busy)
              AtSubmitEntry no_timeout 1%nat _ H1 H2 H3 H4 H5 H6)
    as (r & s' & Hs & Hw & _).
  exists r, s'. split; [exact Hs|exact Hw].
Defined.

Lemma rejected_submission_takes_over_task_witness :
  notFull_pred (pool (after queue_full)) = false
  ∧ tasks (after queue_full) !! 1%nat = Some (Task_ctor (counting_task 8))
  ∧ ∃ r s' s'' R,
      submitTask_step InNotFullWait timeout 1%nat (after queue_full) = Some (Some r, s')
      ∧ Task_exec 1%nat s' = Some s''
      ∧ results s'' !! r = Some R
      ∧ Result_get R = get_returns (Any_cstr "") R.
Proof.
  assert (H1 : notFull_pred (pool (after queue_full)) = false)
    by (vm_compute; reflexivity).
  assert (H2 : tasks (after queue_full) !! 1%nat = Some (Task_ctor (counting_task 8)))
    by (vm_compute; reflexivity).
  split; [exact H1|]. split; [exact H2|].
  destruct (rejected_submission_takes_over_task (after queue_full) 1%nat _ H1 H2)
    as (r & s' & s'' & R & Hs & _ & _ & He & _ & HR & _ & _ & Hg & _).
  exists r, s', s'', R. split; [exact Hs|]. split; [exact He|].
  split; [exact HR|exact Hg].
Defined.

Lemma threshold_taken_only_after_setMode_witness :
  isPoolRunning_ ThreadPool_ctor = false
  ∧ poolMode_ ThreadPool_ctor = MODE_FIXED
  ∧ threadSizeThreshHold_
      (setThreadSizeThreshHold 8 (setMode MODE_CACHED ThreadPool_ctor)) = 8
  ∧ threadSizeThreshHold_
      (setMode MODE_CACHED (setThreadSizeThreshHold 8 ThreadPool_ctor))
    = threadSizeThreshHold_ ThreadPool_ctor.
Proof.
  split; [reflexivity|]. split; [reflexivity|].
  destruct (threshold_taken_only_after_setMode ThreadPool_ctor 8 eq_refl eq_refl)
    as (Ha & Hb & _).
  split; [exact Ha|exact Hb].
Defined.

Lemma gets_after_publications_witness :
  gets 2 (publish [Any_box 1; Any_box 2] (mkResult (Val:=Z) true 0%nat Any_none 0%nat))
    = Some ([Any_box 2; Any_none], mkResult true 0%nat Any_none 0%nat)
  ∧ gets 3 (publish [Any_box 1; Any_box 2] (mkResult (Val:=Z) true 0%nat Any_none 0%nat))
    = None.
Proof.
  exact (gets_after_publications (mkResult (Val:=Z) true 0%nat Any_none 0%nat)
           [Any_box 1] (Any_box 2) eq_refl eq_refl).
Defined.

Lemma worker_step_is_defined_witness :
  reachable (after (one_task_queued ++ worker_takes))
  ∧ workers (after (one_task_queued ++ worker_takes)) !! 0%nat
    = Some (mkWorker 0 (AtExec 0%nat) 5)
  ∧ is_Some (step (Step_threadFunc 0 no_timeout 6)
               (after (one_task_queued ++ worker_takes))).
Proof.
  assert (H1 : reachable (after (one_task_queued ++ worker_takes)))
    by ran (one_task_queued ++ worker_takes).
  assert (H2 : workers (after (one_task_queued ++ worker_takes)) !! 0%nat
               = Some (mkWorker 0 (AtExec 0%nat) 5))
    by (vm_compute; reflexivity).
  assert (H3 : w_pc (mkWorker 0 (AtExec 0%nat) 5) ≠ Exited) by discriminate.
  split; [exact H1|]. split; [exact H2|].
  exact (proj1 (worker_step_is_defined _ 0%nat _ no_timeout 6 H1 H2 H3)).
Defined.

Lemma teardown_after_start_completes_witness :
  generateId_ (after task_made) = 0
  ∧ workers (after task_made) = []
  ∧ ∃ s', exec_actions (start_then_teardown 3 5) (after task_made) = Some s'
      ∧ dtor_may_return (pool s') = true.
Proof.
  assert (H1 : generateId_ (after task_made) = 0) by (vm_compute; reflexivity).
  assert (H2 : threads_ (pool (after task_made)) = ∅) by (vm_compute; reflexivity).
  assert (H3 : idleThreadSize_ (pool (after task_made)) = 0) by (vm_compute; reflexivity).
  assert (H4 : workers (after task_made) = []) by (vm_compute; reflexivity).
  assert (H5 : taskQue_ (pool (after task_made)) = []) by (vm_compute; reflexivity).
  assert (H6 : 0 <= 3 <= INT32_MAX) by (unfold INT32_MAX; lia).
  split; [exact H1|]. split; [exact H4|].
  destruct (teardown_after_start_completes (after task_made) 3 5 H1 H2 H3 H4 H5 H6)
    as (s' & Hs & _ & Hd & _).
  exists s'. split; [exact Hs|exact Hd].
Defined.
